(** * butterfoo: the query pipeline and the deck closure table of [queries.go]

    A shallow embedding of the backend's query-construction engine
    ([composePipes], [EnsureInputColsPipe], [PatchFilterPipe],
    [BuildQueryPipe], [QueryApply]) and of the SQL statements that maintain
    the [DecksClosure] table, followed by the properties stated about them. *)

From Stdlib Require Import Ascii String.
From stdpp Require Import gmap strings list fin_maps relations.

(** ** The [DecksClosure] table *)

Module Closure.

Local Open Scope Z_scope.

(** One row of [DecksClosure(ancestor, descendent, depth)]. *)
Record row := Row { ancestor : Z; descendent : Z; depth : Z }.

(** [PRIMARY KEY(ancestor, descendent)]: the table holds at most one row per
    key, so it is a finite map from the key to the remaining column.  SQLite
    integers are 64-bit; [depth] is kept in [Z] (the statement computes
    [t.depth+1], which leaves the 64-bit range only at depth 2^63-1). The
    foreign keys into [Decks] are checked where the statements are run on
    the whole database, [associate_deck_as_child] below. *)
Abbreviation table := (gmap (Z * Z) Z).

Definition key (r : row) : Z * Z := (ancestor r, descendent r).

(** The rows of the table, in the (unspecified) order a scan visits them. *)
Definition rows (T : table) : list row :=
  (λ e, Row e.1.1 e.1.2 e.2) <$> map_to_list T.

(** [INSERT OR IGNORE] of a single row: a row whose key is taken is skipped. *)
Definition insert_or_ignore (T : table) (r : row) : table :=
  match T !! key r with
  | Some _ => T
  | None => <[key r := depth r]> T
  end.

(** [INSERT OR IGNORE INTO DecksClosure ... <select>]: the select is
    evaluated on the table as it is before the statement, then its rows are
    inserted in order. *)
Definition insert_or_ignore_all (T : table) (rs : list row) : table :=
  foldl insert_or_ignore T rs.

(** [SELECT t.ancestor, :child, t.depth+1 FROM DecksClosure AS t
     WHERE t.descendent = :parent] *)
Definition select_ancestors (T : table) (parent child : Z) : list row :=
  (λ t, Row (ancestor t) child (depth t + 1))
    <$> filter (λ t, descendent t = parent) (rows T).

(** [SELECT :child, :child, 0] *)
Definition select_self (child : Z) : list row := [Row child child 0].

(** The statement of [ASSOCIATE_DECK_AS_CHILD_QUERY] on the table, as far as
    the primary key decides: [UNION ALL] yields the rows of its left
    operand, then those of its right operand. *)
Definition ASSOCIATE_DECK_AS_CHILD (parent child : Z) (T : table) : table :=
  insert_or_ignore_all T (select_ancestors T parent child ++ select_self child).

(** The trigger [decks_closure_new_deck], fired after a row with
    [deck_id = id] is inserted into [Decks]. *)
Definition decks_closure_new_deck (id : Z) (T : table) : table :=
  insert_or_ignore T (Row id id 0).

(** [DECK_CHILDREN_QUERY]: rows with [ancestor = :parent AND depth = 1]. *)
Definition DECK_CHILDREN (parent : Z) (T : table) : list row :=
  filter (λ t, ancestor t = parent ∧ depth t = 1) (rows T).

(** *** Calls on the store and the hierarchy they imply *)

Inductive op :=
  | CreateDeck (id : Z)
  | AssociateAsChild (parent child : Z).

Definition apply_op (T : table) (o : op) : table :=
  match o with
  | CreateDeck id => decks_closure_new_deck id T
  | AssociateAsChild parent child => ASSOCIATE_DECK_AS_CHILD parent child T
  end.

Definition apply_ops (T : table) (os : list op) : table := foldl apply_op T os.

(** Decks created and direct parent/child edges linked by a list of calls. *)
Definition decks_of (os : list op) : list Z :=
  omap (λ o, match o with CreateDeck id => Some id | _ => None end) os.

Definition edges_of (os : list op) : list (Z * Z) :=
  omap (λ o, match o with AssociateAsChild p c => Some (p, c) | _ => None end) os.

(** [path D E a b n]: [b] is reached from deck [a] by [n] direct edges. *)
Inductive path (D : list Z) (E : list (Z * Z)) : Z → Z → Z → Prop :=
  | path_self a : a ∈ D → path D E a a 0
  | path_step a b c n : path D E a b n → (b, c) ∈ E → path D E a c (n + 1).

(** The table is the transitive closure (with depths) of the edges [E] over
    the decks [D]. *)
Definition is_closure (D : list Z) (E : list (Z * Z)) (T : table) : Prop :=
  ∀ a b n, T !! (a, b) = Some n ↔ path D E a b n.

(** A call is made in hierarchy order when, at the time it is made, parent
    and child are created decks, the child has no descendant but itself (it
    has not been used as a parent yet), and no ancestor of the parent (the
    parent included) already reaches the child (the edge is new). *)
Definition no_descendants (T : table) (child : Z) : bool :=
  forallb (λ t, bool_decide (ancestor t = child → descendent t = child)) (rows T).

Definition not_yet_linked (T : table) (parent child : Z) : bool :=
  forallb (λ t, bool_decide (descendent t = parent → T !! (ancestor t, child) = None))
          (rows T).

Definition in_order (T : table) (o : op) : bool :=
  match o with
  | CreateDeck id => true
  | AssociateAsChild parent child =>
      bool_decide (is_Some (T !! (parent, parent)))
      && bool_decide (is_Some (T !! (child, child)))
      && no_descendants T child
      && not_yet_linked T parent child
  end.

Fixpoint all_in_order (T : table) (os : list op) : bool :=
  match os with
  | [] => true
  | o :: os' => in_order T o && all_in_order (apply_op T o) os'
  end.

(** A simpler, sufficient order: the hierarchy is built top-down when every
    linked child is a created deck that no earlier link mentions, put under
    a created parent other than itself. [seen] are the calls made so far. *)
Definition mentions (c : Z) (o : op) : bool :=
  match o with
  | CreateDeck _ => false
  | AssociateAsChild p c' => bool_decide (p = c ∨ c' = c)
  end.

Definition top_down_call (seen : list op) (o : op) : bool :=
  match o with
  | CreateDeck _ => true
  | AssociateAsChild parent child =>
      bool_decide (parent ∈ decks_of seen)
      && bool_decide (child ∈ decks_of seen)
      && bool_decide (parent ≠ child)
      && forallb (λ o', negb (mentions child o')) seen
  end.

Fixpoint top_down (seen os : list op) : bool :=
  match os with
  | [] => true
  | o :: os' => top_down_call seen o && top_down (seen ++ [o]) os'
  end.

(** Every row has a depth that is not negative, and both its decks have
    their self-edge, at depth 0. *)
Definition self_edged (T : table) : Prop :=
  ∀ a b n, T !! (a, b) = Some n →
    0 ≤ n ∧ T !! (a, a) = Some 0 ∧ T !! (b, b) = Some 0.

(** The invariant carried along a list of calls: the table is the closure
    of the edges, and every edge starts at a created deck. *)
Definition wired (D : list Z) (E : list (Z * Z)) (T : table) : Prop :=
  is_closure D E T ∧ ∀ p c, (p, c) ∈ E → p ∈ D.

(** *** The database: [Decks] and [DecksClosure] with its foreign keys *)

(** The state the statements run on: the ids of the rows of [Decks] (the
    names play no part in the closure) and the closure table. *)
Record database := Database { Decks : gset Z; DecksClosure : table }.

Definition empty_database : database := Database ∅ ∅.

(** [FOREIGN KEY (ancestor) REFERENCES Decks(deck_id)], and the same for
    [descendent], in force since [PRAGMA foreign_keys=ON]: the rows a
    statement has added to [T], giving [T'], must name decks. *)
Definition references_decks (D : gset Z) (T T' : table) : bool :=
  bool_decide (map_Forall (λ k _, T !! k = None → k.1 ∈ D ∧ k.2 ∈ D) T').

(** The associate statement run on the database. [INSERT OR IGNORE] does not
    cover foreign keys: when a new row names an id that is no deck the
    statement fails, [None], and nothing is inserted. *)
Definition associate_deck_as_child (parent child : Z) (db : database)
  : option database :=
  let T' := ASSOCIATE_DECK_AS_CHILD parent child (DecksClosure db) in
  if references_decks (Decks db) (DecksClosure db) T'
  then Some (Database (Decks db) T')
  else None.

(** The insert of a row into [Decks] whose id, given by the storage, is
    [id], with the trigger it fires. An id in use breaks the primary key of
    [Decks] and the insert fails. *)
Definition create_new_deck (id : Z) (db : database) : option database :=
  if decide (id ∈ Decks db) then None
  else Some (Database ({[id]} ∪ Decks db)
                      (decks_closure_new_deck id (DecksClosure db))).

(** A call on the database; a statement that fails changes nothing. *)
Definition exec_op (db : database) (o : op) : database :=
  match o with
  | CreateDeck id => default db (create_new_deck id db)
  | AssociateAsChild parent child =>
      default db (associate_deck_as_child parent child db)
  end.

Definition exec_ops (db : database) (os : list op) : database :=
  foldl exec_op db os.

(** What holds of every database the calls can reach: the rows of the
    closure table name decks, and every deck has its self-edge. *)
Definition consistent (db : database) : Prop :=
  (∀ a b n, DecksClosure db !! (a, b) = Some n → a ∈ Decks db ∧ b ∈ Decks db)
  ∧ (∀ d, d ∈ Decks db → DecksClosure db !! (d, d) = Some 0).

End Closure.

(** ** The query pipeline *)

Module Pipeline.

(** [type StringMap map[string]interface{}]: the values are opaque to the
    pipeline, which only copies them, so their type is a parameter. *)
Abbreviation StringMap V := (gmap string V).

(** The maps are handed over by pointer ([*StringMap]): [None] is the nil
    pointer. *)
Abbreviation StringMapPtr V := (option (StringMap V)).

(** The errors the stages return, and their text (the text of the binding
    error belongs to [sqlx] and is only indicated). *)
Inductive error :=
  | MissingColumnError (col query : string)
  | EmptyPatchError
  | ParameterBindingError (name : string).

Definition newline : string := String "010"%char "".

Definition Error (e : error) : string :=
  match e with
  | MissingColumnError col query =>
      "missing required col: " +:+ col +:+ newline +:+ "for query: " +:+ query
  | EmptyPatchError => "nothing patched"
  | ParameterBindingError name => "could not find name " +:+ name
  end.

(** Run-time panics of the Go code: an index past the end of a slice, and
    the use of a context that is not there. *)
Inductive panic := IndexOutOfRange | NilDereference.

Inductive outcome (A : Type) :=
  | Done (a : A)
  | Panicked (p : panic).
Arguments Done {A} a.
Arguments Panicked {A} p.

(** *** [fmt.Sprintf] with one string operand *)

(** The part of [fmt.Sprintf(format, operand)] that the patch stage relies
    on: the verbs [%s] and [%v] print the operand, [%%] prints a percent
    sign, a verb without operand left prints [%!s(MISSING)], another verb
    letter prints [%!c(string=operand)], and an operand that no verb used is
    reported at the end as [%!(EXTRA string=operand)]. The other verbs that
    Go formats for a string ([%q], [%x], [%X], [%T]), flags, widths,
    precisions and argument indexes are outside this model, which prints
    them as unknown verbs; no template of the catalog has any of them. *)
Fixpoint Sprintf (format operand : string) (used : bool) : string :=
  match format with
  | EmptyString =>
      if used then "" else "%!(EXTRA string=" +:+ operand +:+ ")"
  | String c rest =>
      if Ascii.eqb c "%" then
        match rest with
        | EmptyString =>
            "%!(NOVERB)" +:+
              (if used then "" else "%!(EXTRA string=" +:+ operand +:+ ")")
        | String v rest' =>
            if Ascii.eqb v "%" then String "%" (Sprintf rest' operand used)
            else if used then
              "%!" +:+ String v "(MISSING)" +:+ Sprintf rest' operand true
            else if Ascii.eqb v "s" || Ascii.eqb v "v" then
              operand +:+ Sprintf rest' operand true
            else
              "%!" +:+ String v "(string=" +:+ operand +:+ ")"
                +:+ Sprintf rest' operand true
        end
      else String c (Sprintf rest operand used)
  end.

(** A string without percent sign holds no verb. *)
Fixpoint percent_free (s : string) : bool :=
  match s with
  | EmptyString => true
  | String c s' => negb (Ascii.eqb c "%") && percent_free s'
  end.

(** [strings.Join(elems, sep)] *)
Definition Join (elems : list string) (sep : string) : string :=
  String.concat sep elems.

(** *** Named parameters *)

Definition is_name_char (c : ascii) : bool :=
  let n := N_of_ascii c in
  ((48 <=? n) && (n <=? 57) || (65 <=? n) && (n <=? 90)
   || (97 <=? n) && (n <=? 122) || (n =? 95))%N.

(** What the scan emits for a name that has just ended: a positional
    placeholder, or the colon itself when no name followed it. *)
Definition end_name (name : option string) (out : string * list string)
  : string * list string :=
  match name with
  | None => out
  | Some EmptyString => (String ":" out.1, out.2)
  | Some name => (String "?" out.1, name :: out.2)
  end.

(** Modelled from the spec: the named-parameter compiler behind
    [sqlx.Named], which is a third-party package and not in the source
    tree.  One left-to-right scan of the template: a colon followed by a
    name ([:name], the name made of letters, digits and underscores) is
    rewritten to the positional placeholder [?] and the name is recorded, in
    template order; every other character is copied. [inName] is the name
    being read, if any. *)
Fixpoint compileNamedQuery (qs : string) (inName : option string)
  : string * list string :=
  match qs with
  | EmptyString => end_name inName (EmptyString, [])
  | String b qs' =>
      match inName with
      | Some name =>
          if is_name_char b then
            compileNamedQuery qs' (Some (name +:+ String b ""))
          else if Ascii.eqb b ":" then
            end_name inName (compileNamedQuery qs' (Some EmptyString))
          else
            end_name inName
              (let out := compileNamedQuery qs' None in (String b out.1, out.2))
      | None =>
          if Ascii.eqb b ":" then compileNamedQuery qs' (Some EmptyString)
          else let out := compileNamedQuery qs' None in (String b out.1, out.2)
      end
  end.

(** A string that does not begin with a name character. *)
Definition starts_plain (s : string) : bool :=
  match s with
  | EmptyString => true
  | String b _ => negb (is_name_char b)
  end.

(** The template in the positional dialect, and its named placeholders in
    template order. *)
Definition positional (query : string) : string :=
  (compileNamedQuery query None).1.

Definition placeholders (query : string) : list string :=
  (compileNamedQuery query None).2.

(** The words of the spec on the named placeholders, to compare the scan
    with: a template reads as literal text and named placeholders,
    [text :name1 text1 :name2 text2 ...]. [render_named] is the template,
    [render_positional] the same with [?] for every placeholder. *)
Fixpoint render_named (text : string) (segs : list (string * string))
  : string :=
  match segs with
  | [] => text
  | (name, text') :: segs' =>
      text +:+ String ":" (name +:+ render_named text' segs')
  end.

Fixpoint render_positional (text : string) (segs : list (string * string))
  : string :=
  match segs with
  | [] => text
  | (_, text') :: segs' =>
      text +:+ String "?" (render_positional text' segs')
  end.

Fixpoint all_name_chars (s : string) : bool :=
  match s with
  | EmptyString => true
  | String b s' => is_name_char b && all_name_chars s'
  end.

(** Literal text: no colon of it begins a name (a colon is the last
    character or is followed by a character that is no name character). *)
Fixpoint literal (s : string) : bool :=
  match s with
  | EmptyString => true
  | String b s' =>
      (if Ascii.eqb b ":" then starts_plain s' else true) && literal s'
  end.

(** The reading is the one of the scan: names are not empty and run as far
    as name characters go, texts are literal. *)
Definition well_formed (text : string) (segs : list (string * string))
  : bool :=
  literal text
  && forallb (λ seg, negb (String.eqb seg.1 EmptyString)
                     && all_name_chars seg.1
                     && starts_plain seg.2 && literal seg.2) segs.

Abbreviation loc := nat.

Section Engine.
Context {V : Type}.

(** Modelled from the spec: the binding half of [sqlx.Named]. The values of
    the names are looked up in order; a name without an entry in the map is
    the binding error. *)
Fixpoint bindMapArgs (names : list string) (arg : StringMap V)
  : error + list V :=
  match names with
  | [] => inr []
  | name :: names' =>
      match arg !! name with
      | None => inl (ParameterBindingError name)
      | Some val =>
          match bindMapArgs names' arg with
          | inl err => inl err
          | inr arglist => inr (val :: arglist)
          end
      end
  end.

(** Modelled from the spec: [sqlx.Named(query, arg)]. *)
Definition Named (query : string) (arg : StringMap V)
  : error + (string * list V) :=
  match bindMapArgs (placeholders query) arg with
  | inl err => inl err
  | inr arglist => inr (positional query, arglist)
  end.

(** *** Contexts and the store they live in *)

(** [type QueryContext struct]. The map behind [nameArgs] is allocated with
    the context and the pointer is never reassigned, so the map is kept as
    the field itself. *)
Record QueryContext := {
  query : string;
  nameArgs : StringMap V;
  args : list V
}.

(** Contexts are passed by pointer and mutated in place: a pointer is a
    location [loc] of the store [heap], [nil] is [None]. *)
Local Abbreviation heap := (list QueryContext).

(** [MakeCtxMaker(baseQuery)]: the function that allocates a new context. *)
Inductive CtxMaker := MakeCtxMaker (baseQuery : string).

Definition make_ctx (makeCtx : CtxMaker) (h : heap) : heap * loc :=
  match makeCtx with
  | MakeCtxMaker baseQuery =>
      (h ++ [{| query := baseQuery; nameArgs := ∅; args := [] |}], length h)
  end.

(** *** Stages *)

(** The Go type [Pipe], a function of a context pointer and a pointer to the
    remaining [Pipe]s that returns a [PipeInput], mentions itself as an
    argument, so the stages are given by name: these are the three ways the
    source builds a [Pipe]. *)
Inductive Pipe :=
  | EnsureInputColsPipe (required : list string)
  | PatchFilterPipe (whitelist : list string)
  | BuildQueryPipe.

(** The Go type [PipeInput], a variadic function that returns a context
    pointer, the next [PipeInput] and an error: the closures the source
    creates of this type, each with the variables it captures. *)
Inductive PipeInput :=
  | NoopInput
  | FirstInput (makeCtx : CtxMaker) (firstPipe : Pipe) (restPipes : list Pipe)
  | StageInput (pipe : Pipe) (ctx : loc) (pipes : list Pipe).

Definition composePipes (makeCtx : CtxMaker) (pipes : list Pipe) : PipeInput :=
  match pipes with
  | [] => NoopInput
  | firstPipe :: restPipes => FirstInput makeCtx firstPipe restPipes
  end.

(** What a call of a [PipeInput] returns: [(ctx, next, err)]. *)
Definition returned : Type := option loc * option PipeInput * option error.

(** The loop of [EnsureInputColsPipe]. It returns the context as the loop
    leaves it, with the error of the early return, if any. *)
Fixpoint ensure_cols (required : list string) (inputMap : StringMap V)
    (c : QueryContext) : QueryContext * option error :=
  match required with
  | [] => (c, None)
  | col :: required' =>
      match inputMap !! col with
      | None => (c, Some (MissingColumnError col (query c)))
      | Some value =>
          ensure_cols required' inputMap
            {| query := query c;
               nameArgs := <[col := value]> (nameArgs c);
               args := args c |}
      end
  end.

(** [setstring := fmt.Sprintf("%s = :%s", col, col)] *)
Definition setstring (col : string) : string := col +:+ " = :" +:+ col.

(** The loop of [PatchFilterPipe], over the locals [nameArgs],
    [namedSetStrings] and [patched]. *)
Fixpoint patch_cols (whitelist : list string) (patch : StringMap V)
    (nameArgs : StringMap V) (namedSetStrings : list string) (patched : bool)
  : StringMap V * list string * bool :=
  match whitelist with
  | [] => (nameArgs, namedSetStrings, patched)
  | col :: whitelist' =>
      match patch !! col with
      | Some value =>
          patch_cols whitelist' patch (<[col := value]> nameArgs)
            (namedSetStrings ++ [setstring col]) true
      | None => patch_cols whitelist' patch nameArgs namedSetStrings patched
      end
  end.

(** The successful end of a stage: [nextPipe] is [pipes[0]], [restPipes] is
    [pipes[1:]], and [ctx, nextPipe(ctx, &restPipes), nil] is returned. *)
Definition pass_on (ctx : loc) (pipes : list Pipe) (h : heap)
  : outcome (heap * returned) :=
  match pipes with
  | [] => Panicked IndexOutOfRange
  | nextPipe :: restPipes =>
      Done (h, (Some ctx, Some (StageInput nextPipe ctx restPipes), None))
  end.

(** The map a loop over [cols] reads through the pointer [ptr]: the pointer
    is dereferenced in each turn of the loop, so a nil pointer panics in the
    first turn, and is never looked at when the loop has no turn (any map
    does then). *)
Definition deref (ptr : StringMapPtr V) (cols : list string)
  : outcome (StringMap V) :=
  match ptr, cols with
  | Some m, _ => Done m
  | None, [] => Done ∅
  | None, _ :: _ => Panicked NilDereference
  end.

(** The body of the closure that stage [pipe] returns for [ctx] and [pipes],
    called with the arguments [callArgs]. *)
Definition run_pipe (pipe : Pipe) (ctx : loc) (pipes : list Pipe)
    (callArgs : list (StringMapPtr V)) (h : heap) : outcome (heap * returned) :=
  match pipe with
  | EnsureInputColsPipe required =>
      match callArgs with
      | [] => Panicked IndexOutOfRange
      | inputMap :: _ =>
          match h !! ctx with
          | None => Panicked NilDereference
          | Some c =>
              match deref inputMap required with
              | Panicked p => Panicked p
              | Done inputMap =>
                  let (c', err) := ensure_cols required inputMap c in
                  match err with
                  | Some e => Done (<[ctx := c']> h, (None, None, Some e))
                  | None => pass_on ctx pipes (<[ctx := c']> h)
                  end
              end
          end
      end
  | PatchFilterPipe whitelist =>
      match callArgs with
      | [] => Panicked IndexOutOfRange
      | patch :: _ =>
          match h !! ctx with
          | None => Panicked NilDereference
          | Some c =>
              match deref patch whitelist with
              | Panicked p => Panicked p
              | Done patch =>
                  let '(nameArgs', namedSetStrings, patched) :=
                    patch_cols whitelist patch (nameArgs c) [] false in
                  if negb patched
                  then Done (h, (None, None, Some EmptyPatchError))
                  else
                    pass_on ctx pipes
                      (<[ctx := {| query := Sprintf (query c)
                                              (Join namedSetStrings ", ") false;
                                   nameArgs := nameArgs';
                                   args := args c |}]> h)
              end
          end
      end
  | BuildQueryPipe =>
      match h !! ctx with
      | None => Panicked NilDereference
      | Some c =>
          match Named (query c) (nameArgs c) with
          | inl err => Done (h, (None, None, Some err))
          | inr (query', args') =>
              Done (<[ctx := {| query := query'; nameArgs := nameArgs c;
                                args := args' |}]> h,
                    (Some ctx, None, None))
          end
      end
  end.

(** Calling a [PipeInput] with [args]. *)
Definition call (p : PipeInput) (args : list (StringMapPtr V)) (h : heap)
  : outcome (heap * returned) :=
  match p with
  | NoopInput => Done (h, (None, None, None))
  | FirstInput makeCtx firstPipe restPipes =>
      let (h', ctx) := make_ctx makeCtx h in
      run_pipe firstPipe ctx restPipes args h'
  | StageInput pipe ctx pipes => run_pipe pipe ctx pipes args h
  end.

(** A call succeeds when it returns normally, with a context and without
    error. *)
Definition succeeds (r : outcome (heap * returned)) : Prop :=
  ∃ h' ctx next, r = Done (h', (Some ctx, next, None)).

(** *** [QueryApply] *)

(** The variables of the loop of [QueryApply], with the store. *)
Record loop_state := {
  currentPipe : option PipeInput;
  ctx : option loc;
  idx : nat;
  store : heap
}.

(** What [QueryApply] returns: [(string, []interface{}, error)]. *)
Definition applied : Type := string * list V * option error.

(** One turn of [for currentPipe != nil { ... }], or the code after the loop
    when [currentPipe] is [nil]. *)
Definition loop_body (stringmaps : list (StringMapPtr V)) (s : loop_state)
  : outcome (loop_state + applied) :=
  match currentPipe s with
  | Some pipe =>
      let (callArgs, idx') :=
        match stringmaps !! idx s with
        | Some m => ([m], S (idx s))
        | None => ([], idx s)
        end in
      match call pipe callArgs (store s) with
      | Panicked p => Panicked p
      | Done (h', (_, _, Some err)) => Done (inr (EmptyString, [], Some err))
      | Done (h', (ctx', next, None)) =>
          Done (inl {| currentPipe := next; ctx := ctx'; idx := idx';
                       store := h' |})
      end
  | None =>
      match ctx s with
      | Some c =>
          match store s !! c with
          | Some x => Done (inr (query x, args x, None))
          | None => Panicked NilDereference
          end
      | None => Done (inr (EmptyString, [], None))
      end
  end.

(** The loop, run for at most [fuel] turns; [None] when the fuel runs out. *)
Fixpoint QueryApply_loop (fuel : nat) (stringmaps : list (StringMapPtr V))
    (s : loop_state) : option (outcome applied) :=
  match fuel with
  | O => None
  | S fuel' =>
      match loop_body stringmaps s with
      | Panicked p => Some (Panicked p)
      | Done (inr r) => Some (Done r)
      | Done (inl s') => QueryApply_loop fuel' stringmaps s'
      end
  end.

(** The number of stages a [PipeInput] still has to run. *)
Definition stages (p : PipeInput) : nat :=
  match p with
  | NoopInput => 1
  | FirstInput _ _ restPipes => S (length restPipes)
  | StageInput _ _ pipes => S (length pipes)
  end.

(** The stages a [PipeInput] runs, in order. *)
Definition chain (p : PipeInput) : list Pipe :=
  match p with
  | NoopInput => []
  | FirstInput _ firstPipe restPipes => firstPipe :: restPipes
  | StageInput pipe _ pipes => pipe :: pipes
  end.

Definition remaining (s : loop_state) : nat :=
  match currentPipe s with
  | Some p => stages p
  | None => 0
  end.

Definition start (pipe : PipeInput) (h : heap) : loop_state :=
  {| currentPipe := Some pipe; ctx := None; idx := 0; store := h |}.

(** [QueryApply(pipe, stringmaps...)], run on the store [h]. *)
Definition QueryApply (pipe : PipeInput) (stringmaps : list (StringMapPtr V))
    (h : heap) : option (outcome applied) :=
  QueryApply_loop (S (stages pipe)) stringmaps (start pipe h).

(** One turn of the loop that goes on to the next turn. *)
Definition loop_step (stringmaps : list (StringMapPtr V)) (s s' : loop_state)
  : Prop :=
  loop_body stringmaps s = Done (inl s').

(** The states of an invocation that began in [s0] and runs on the context
    at [l0]: the first state, the states after the last stage, and the
    states between two stages, where the positional list is still empty. *)
Definition in_flight (s0 : loop_state) (l0 : loc) (s : loop_state) : Prop :=
  s = s0 ∨ currentPipe s = None
  ∨ ∃ pipe pipes c,
      currentPipe s = Some (StageInput pipe l0 pipes) ∧ ctx s = Some l0
      ∧ store s !! l0 = Some c ∧ args c = [].

End Engine.

Arguments QueryContext V : clear implicits.
Abbreviation heap V := (list (QueryContext V)).
Arguments loop_state V : clear implicits.
Arguments applied V : clear implicits.

(** *** The catalog *)

Definition FETCH_CONFIG_SETTING_QUERY : PipeInput :=
  composePipes
    (MakeCtxMaker "
    SELECT setting, value FROM Config WHERE setting = :setting;
    ")
    [EnsureInputColsPipe ["setting"]; BuildQueryPipe].

Definition SET_CONFIG_SETTING_QUERY : PipeInput :=
  composePipes
    (MakeCtxMaker "
    INSERT OR REPLACE INTO Config(setting, value) VALUES (:setting, :value);
    ")
    [EnsureInputColsPipe ["setting"; "value"]; BuildQueryPipe].

Definition CREATE_NEW_DECK_QUERY : PipeInput :=
  composePipes
    (MakeCtxMaker "
    INSERT INTO Decks(name) VALUES (:name);
    ")
    [EnsureInputColsPipe ["name"]; BuildQueryPipe].

Definition FETCH_DECK_QUERY : PipeInput :=
  composePipes
    (MakeCtxMaker "
    SELECT deck_id, name FROM Decks WHERE deck_id = :deck_id;
    ")
    [EnsureInputColsPipe ["deck_id"]; BuildQueryPipe].

Definition UPDATE_DECK_QUERY : PipeInput :=
  composePipes
    (MakeCtxMaker "
    UPDATE Decks
    SET
    %s
    WHERE deck_id = :deck_id
    ")
    [EnsureInputColsPipe ["deck_id"]; PatchFilterPipe ["name"]; BuildQueryPipe].

Definition ASSOCIATE_DECK_AS_CHILD_QUERY : PipeInput :=
  composePipes
    (MakeCtxMaker "
    INSERT OR IGNORE INTO DecksClosure(ancestor, descendent, depth)

    /* for every ancestor of parent, make it an ancestor of child */
    SELECT t.ancestor, :child, t.depth+1
    FROM DecksClosure AS t
    WHERE t.descendent = :parent

    UNION ALL

    /* child is an ancestor of itself with a depth of 0 */
    SELECT :child, :child, 0;
    ")
    [EnsureInputColsPipe ["parent"; "child"]; BuildQueryPipe].

Definition DECK_CHILDREN_QUERY : PipeInput :=
  composePipes
    (MakeCtxMaker "
    SELECT ancestor, descendent, depth
    FROM DecksClosure
    WHERE
    ancestor = :parent
    AND depth = 1;
    ")
    [EnsureInputColsPipe ["parent"]; BuildQueryPipe].

End Pipeline.

(** ** Properties of the pipeline *)

Module PipelineProps.
Import Pipeline.

(** *** The named-parameter scan *)

Lemma compile_after_colon (t : string) :
  starts_plain t = true →
  compileNamedQuery t None = (t, []) →
  compileNamedQuery t (Some EmptyString) = (String ":" t, []).
Proof.
  destruct t as [|b t]; [done|]. cbn [starts_plain compileNamedQuery].
  intros Hb%negb_true_iff. rewrite Hb.
  destruct (Ascii.eqb b ":") eqn:Hc.
  - intros ->. done.
  - intros Heq. rewrite Heq. done.
Qed.

Lemma compile_end_name inName (out : string) (names : list string) :
  compileNamedQuery out None = (out, []) →
  starts_plain out = true →
  compileNamedQuery (end_name inName (out, names)).1 None
  = ((end_name inName (out, names)).1, [])
  ∧ (is_Some inName → starts_plain (end_name inName (out, names)).1 = true).
Proof.
  intros Hout Hplain. destruct inName as [[|ch name]|]; simpl.
  - split; [|done]. by apply compile_after_colon.
  - split; [|done]. by rewrite Hout.
  - split; [done|]. by intros [? ?].
Qed.

Lemma compile_positional qs : ∀ inName,
  compileNamedQuery (compileNamedQuery qs inName).1 None
  = ((compileNamedQuery qs inName).1, [])
  ∧ (is_Some inName → starts_plain (compileNamedQuery qs inName).1 = true).
Proof.
  induction qs as [|b qs IH]; intros inName.
  - by apply compile_end_name.
  - cbn [compileNamedQuery]. destruct inName as [name|].
    + destruct (is_name_char b) eqn:Hn.
      { destruct (IH (Some (name +:+ String b ""))) as [? Hp].
        split; [done|]. intros _. by apply Hp. }
      destruct (Ascii.eqb b ":") eqn:Hc.
      * destruct (IH (Some EmptyString)) as [Ho Hp].
        destruct (compileNamedQuery qs (Some EmptyString)) as [out names].
        apply compile_end_name; [done|]. by apply Hp.
      * destruct (IH None) as [Ho _].
        destruct (compileNamedQuery qs None) as [out names].
        cbn [fst snd] in *.
        apply (compile_end_name (Some name) (String b out) names).
        -- cbn [compileNamedQuery]. rewrite Hc, Ho. done.
        -- simpl. by rewrite Hn.
    + destruct (Ascii.eqb b ":") eqn:Hc.
      * destruct (IH (Some EmptyString)) as [Ho _]. split; [done|].
        by intros [? ?].
      * destruct (IH None) as [Ho _]. split; [|by intros [? ?]].
        simpl. rewrite Hc, Ho. done.
Qed.

Lemma placeholders_positional query : placeholders (positional query) = [].
Proof.
  unfold placeholders, positional.
  destruct (compile_positional query None) as [-> _]. done.
Qed.

(** *** The scan against the reading of a template *)

Lemma append_cons b (s t : string) : String b s +:+ t = String b (s +:+ t).
Proof. reflexivity. Qed.

Lemma append_nil (t : string) : EmptyString +:+ t = t.
Proof. reflexivity. Qed.

Lemma append_empty (s : string) : s +:+ EmptyString = s.
Proof.
  induction s as [|b s IH]; [done|]. rewrite append_cons. by f_equal.
Qed.

Lemma append_append (s t u : string) : (s +:+ t) +:+ u = s +:+ (t +:+ u).
Proof.
  induction s as [|b s IH]; [done|]. rewrite !append_cons. by f_equal.
Qed.

Lemma starts_plain_append (s t : string) :
  starts_plain s = true → starts_plain t = true →
  starts_plain (s +:+ t) = true.
Proof. by destruct s. Qed.

Lemma compile_in_name (r acc : string) :
  starts_plain r = true →
  compileNamedQuery r (Some acc)
  = end_name (Some acc) (compileNamedQuery r None).
Proof.
  destruct r as [|b r]; [done|]. cbn [starts_plain compileNamedQuery].
  intros Hb%negb_true_iff. rewrite Hb. by destruct (Ascii.eqb b ":").
Qed.

Lemma compile_name (n : string) : ∀ acc r,
  all_name_chars n = true → starts_plain r = true →
  compileNamedQuery (n +:+ r) (Some acc)
  = end_name (Some (acc +:+ n)) (compileNamedQuery r None).
Proof.
  induction n as [|b n IH]; intros acc r Hn Hr.
  - rewrite append_empty, append_nil. by apply compile_in_name.
  - cbn [all_name_chars] in Hn. apply andb_true_iff in Hn as [Hb Hn].
    rewrite append_cons. cbn [compileNamedQuery]. rewrite Hb, IH by done.
    by rewrite append_append.
Qed.

Lemma compile_literal (t : string) : ∀ s,
  literal t = true → starts_plain s = true →
  compileNamedQuery (t +:+ s) None
  = (t +:+ (compileNamedQuery s None).1, (compileNamedQuery s None).2).
Proof.
  induction t as [|b t IH]; intros s Ht Hs.
  - rewrite !append_nil. by destruct (compileNamedQuery s None).
  - cbn [literal] in Ht. apply andb_true_iff in Ht as [Hb Ht].
    rewrite !append_cons. cbn [compileNamedQuery].
    destruct (Ascii.eqb b ":") eqn:Hc.
    + apply Ascii.eqb_eq in Hc as ->.
      rewrite compile_in_name by by apply starts_plain_append.
      rewrite IH by done. done.
    + rewrite IH by done. done.
Qed.

Lemma starts_plain_render (text : string) segs :
  starts_plain text = true → starts_plain (render_named text segs) = true.
Proof.
  intros Ht. destruct segs as [|[name text'] segs]; [done|].
  cbn [render_named]. by apply starts_plain_append.
Qed.

(** The scan finds the placeholders of the reading, in order, and writes the
    positional template. *)
Lemma compile_render segs : ∀ text,
  well_formed text segs = true →
  compileNamedQuery (render_named text segs) None
  = (render_positional text segs, segs.*1).
Proof.
  unfold well_formed.
  induction segs as [|[name text'] segs IH]; intros text;
    rewrite andb_true_iff; intros [Ht Hsegs].
  - cbn [render_named render_positional]. rewrite <- (append_empty text) at 1.
    rewrite compile_literal by done. cbn. by rewrite append_empty.
  - cbn [forallb fst snd] in Hsegs. rewrite !andb_true_iff in Hsegs.
    destruct Hsegs as [[[[Hne Hname] Hplain] Hlit] Hsegs].
    cbn [render_named render_positional].
    rewrite compile_literal by done. cbn [compileNamedQuery].
    rewrite (Ascii.eqb_refl ":").
    rewrite compile_name by (by try apply starts_plain_render).
    rewrite IH by (by apply andb_true_iff). rewrite append_nil.
    destruct name as [|b name]; [done|]. done.
Qed.

Lemma render_named_cons b (text : string) segs :
  render_named (String b text) segs = String b (render_named text segs).
Proof. by destruct segs as [|[? ?] ?]. Qed.

Lemma render_named_append (n text : string) segs :
  render_named (n +:+ text) segs = n +:+ render_named text segs.
Proof.
  destruct segs as [|[? ?] ?]; [done|]. cbn [render_named].
  by rewrite append_append.
Qed.

Lemma name_prefix (s : string) :
  ∃ n t, s = n +:+ t ∧ all_name_chars n = true ∧ starts_plain t = true
       ∧ (literal s = true → literal t = true)
       ∧ (starts_plain s = false → n ≠ EmptyString).
Proof.
  induction s as [|b s (n & t & -> & Hn & Ht & Hlit & _)].
  - by exists EmptyString, EmptyString.
  - destruct (is_name_char b) eqn:Hb.
    + exists (String b n), t. cbn [all_name_chars literal starts_plain].
      rewrite Hb, Hn. split; [done|].
      split; [done|]. split; [done|]. split; [|done].
      intros [_ ?]%andb_true_iff. by apply Hlit.
    + exists EmptyString, (String b (n +:+ t)).
      cbn [starts_plain]. by rewrite Hb.
Qed.

(** Every template has such a reading. *)
Lemma every_template_reads (q : string) :
  ∃ text segs, well_formed text segs = true ∧ q = render_named text segs.
Proof.
  unfold well_formed.
  induction q as [|b q (text & segs & [Ht Hsegs]%andb_true_iff & ->)].
  - by exists EmptyString, [].
  - destruct (Ascii.eqb b ":") eqn:Hc.
    + apply Ascii.eqb_eq in Hc as ->.
      destruct (starts_plain text) eqn:Hp.
      * exists (String ":" text), segs. rewrite render_named_cons.
        split; [|done]. cbn [literal]. by rewrite (Ascii.eqb_refl ":"), Hp, Ht, Hsegs.
      * destruct (name_prefix text) as (n & t & -> & Hn & Hplain & Hlit & Hne).
        exists EmptyString, ((n, t) :: segs).
        rewrite render_named_append. split; [|done].
        cbn [literal forallb fst snd].
        rewrite Hn, Hplain, Hlit, Hsegs by done.
        destruct n; [by destruct Hne|done].
    + exists (String b text), segs. rewrite render_named_cons.
      split; [|done]. cbn [literal]. by rewrite Hc, Ht, Hsegs.
Qed.

Section Stages.
Context {V : Type}.
Implicit Types (M patch : StringMap V) (c : QueryContext V) (h : heap V).
Implicit Types (required whitelist : list string) (pipes : list Pipe).

(** *** The store *)

Lemma lookup_fresh h c : (h ++ [c]) !! length h = Some c.
Proof. by rewrite lookup_app_r, Nat.sub_diag. Qed.

Lemma insert_fresh h c c' : <[length h := c']> (h ++ [c]) = h ++ [c'].
Proof.
  replace (length h) with (length h + 0) by lia. by rewrite insert_app_r.
Qed.

(** *** The loop of [EnsureInputColsPipe] *)

Lemma ensure_cols_app pre rest M : ∀ c,
  (∀ k, k ∈ pre → is_Some (M !! k)) →
  ∃ na, ensure_cols (pre ++ rest) M c
        = ensure_cols rest M {| query := query c; nameArgs := na; args := args c |}
      ∧ ∀ k, na !! k = if decide (k ∈ pre) then M !! k else nameArgs c !! k.
Proof.
  induction pre as [|col pre IH]; intros c Hpre.
  - exists (nameArgs c). split; [by destruct c|].
    intros k. rewrite decide_False; [done|]. apply not_elem_of_nil.
  - destruct (Hpre col) as [v Hv]; [apply list_elem_of_here|].
    simpl. rewrite Hv.
    destruct (IH {| query := query c; nameArgs := <[col:=v]> (nameArgs c);
                    args := args c |}) as (na & Heq & Hna).
    { intros k Hk. apply Hpre. by apply list_elem_of_further. }
    exists na. split; [done|]. intros k. rewrite Hna. simpl.
    destruct (decide (k ∈ pre)) as [Hin|Hin].
    + rewrite decide_True; [done|]. by apply list_elem_of_further.
    + destruct (decide (k = col)) as [->|Hne].
      * rewrite lookup_insert_eq, decide_True; [done|]. apply list_elem_of_here.
      * rewrite lookup_insert_ne by done. rewrite decide_False; [done|].
        intros [->|?]%elem_of_cons; done.
Qed.

Lemma first_missing_split M required :
  ¬ (∀ col, col ∈ required → is_Some (M !! col)) →
  ∃ pre col post, required = pre ++ col :: post
    ∧ (∀ k, k ∈ pre → is_Some (M !! k)) ∧ M !! col = None.
Proof.
  induction required as [|col required IH]; intros Hnot.
  - destruct Hnot. intros col Hin. by apply elem_of_nil in Hin.
  - destruct (M !! col) as [v|] eqn:Hcol.
    + destruct IH as (pre & col' & post & -> & Hpre & Hmiss).
      { intros Hall. apply Hnot. intros k [->|Hk]%elem_of_cons; eauto. }
      exists (col :: pre), col', post. split; [done|]. split; [|done].
      intros k [->|Hk]%elem_of_cons; eauto.
    + exists [], col, required. split; [done|]. split; [|done].
      intros k Hk. by apply elem_of_nil in Hk.
Qed.

Lemma ensure_cols_all_present required M c :
  (∀ col, col ∈ required → is_Some (M !! col)) →
  ∃ na, ensure_cols required M c
        = ({| query := query c; nameArgs := na; args := args c |}, None)
      ∧ ∀ k, na !! k = if decide (k ∈ required) then M !! k else nameArgs c !! k.
Proof.
  intros Hall.
  destruct (ensure_cols_app required [] M c Hall) as (na & Heq & Hna).
  rewrite app_nil_r in Heq. by exists na.
Qed.

Lemma ensure_cols_first_missing pre col post M c :
  (∀ k, k ∈ pre → is_Some (M !! k)) → M !! col = None →
  ∃ na, ensure_cols (pre ++ col :: post) M c
        = ({| query := query c; nameArgs := na; args := args c |},
           Some (MissingColumnError col (query c)))
      ∧ ∀ k, na !! k = if decide (k ∈ pre) then M !! k else nameArgs c !! k.
Proof.
  intros Hpre Hmiss.
  destruct (ensure_cols_app pre (col :: post) M c Hpre) as (na & Heq & Hna).
  exists na. split; [|done]. rewrite Heq. simpl. by rewrite Hmiss.
Qed.

(** C3: run on a new context and followed by a further stage, the
    required-columns stage succeeds exactly when every required name is a key
    of the input map, and then the named-parameter map of the context holds
    the entries of the input map under the required names and no other. *)
Theorem requireColumns_succeeds_iff_superset required M baseQuery
    nextPipe restPipes h :
  let r := call (composePipes (MakeCtxMaker baseQuery)
                   (EnsureInputColsPipe required :: nextPipe :: restPipes))
                [Some M] h in
  (succeeds r ↔ ∀ col, col ∈ required → is_Some (M !! col)) ∧
  (succeeds r →
     r = Done (h ++ [{| query := baseQuery;
                        nameArgs := filter (λ kv, kv.1 ∈ required) M;
                        args := [] |}],
               (Some (length h),
                Some (StageInput nextPipe (length h) restPipes), None))).
Proof.
  simpl. rewrite lookup_fresh.
  set (c0 := {| query := baseQuery; nameArgs := ∅; args := [] |}).
  destruct (decide (Forall (λ col, is_Some (M !! col)) required)) as [Hall|Hnot];
    rewrite Forall_forall in *.
  - destruct (ensure_cols_all_present required M c0 Hall) as (na & -> & Hna).
    simpl. rewrite insert_fresh.
    assert (na = filter (λ kv, kv.1 ∈ required) M) as ->.
    { apply map_eq. intros k. rewrite Hna. simpl.
      destruct (decide (k ∈ required)) as [Hin|Hin].
      - destruct (Hall k Hin) as [v Hv]. rewrite Hv. symmetry.
        by apply map_lookup_filter_Some.
      - rewrite lookup_empty. symmetry. apply map_lookup_filter_None.
        right. intros v _. done. }
    split; [|done]. split; [done|]. intros _. by eexists _, _, _.
  - destruct (first_missing_split M required Hnot)
      as (pre & col & post & -> & Hpre & Hmiss).
    destruct (ensure_cols_first_missing pre col post M c0 Hpre Hmiss)
      as (na & -> & _).
    simpl. split; [split|]; [| done |]; by intros (? & ? & ? & ?).
Qed.

(** C5 (as amended): when a required name is missing, the stage returns the
    missing-column error for the first missing name, with the template, and
    neither context nor next stage. The names listed before it have been
    copied into the named-parameter map by then; nothing else of the context
    changes, and the map is untouched when the first name is the missing
    one. *)
Theorem requireColumns_missing_column pre col post M c h ctx pipes :
  h !! ctx = Some c →
  (∀ k, k ∈ pre → is_Some (M !! k)) →
  M !! col = None →
  ∃ na,
    call (StageInput (EnsureInputColsPipe (pre ++ col :: post)) ctx pipes) [Some M] h
    = Done (<[ctx := {| query := query c; nameArgs := na; args := args c |}]> h,
            (None, None, Some (MissingColumnError col (query c))))
    ∧ (∀ k, na !! k = if decide (k ∈ pre) then M !! k else nameArgs c !! k)
    ∧ (pre = [] → na = nameArgs c).
Proof.
  intros Hc Hpre Hmiss. simpl. rewrite Hc.
  destruct (ensure_cols_first_missing pre col post M c Hpre Hmiss)
    as (na & -> & Hna).
  exists na. split; [done|]. split; [done|].
  intros ->. apply map_eq. intros k. rewrite Hna.
  rewrite decide_False; [done|]. apply not_elem_of_nil.
Qed.

(** *** The loop of [PatchFilterPipe] *)

Lemma patch_cols_spec whitelist M : ∀ na frags patched,
  ∃ na',
    patch_cols whitelist M na frags patched
    = (na',
       frags ++ (setstring <$> filter (λ col, is_Some (M !! col)) whitelist),
       patched || bool_decide (filter (λ col, is_Some (M !! col)) whitelist ≠ []))
    ∧ ∀ k, na' !! k =
        if decide (k ∈ whitelist ∧ is_Some (M !! k)) then M !! k else na !! k.
Proof.
  induction whitelist as [|col whitelist IH]; intros na frags patched.
  - exists na. split.
    + cbn [patch_cols]. rewrite filter_nil, fmap_nil, app_nil_r.
      rewrite bool_decide_eq_false_2 by (by intros []).
      by rewrite orb_false_r.
    + intros k. rewrite decide_False; [done|]. intros [Hk _].
      by apply elem_of_nil in Hk.
  - cbn [patch_cols]. destruct (M !! col) as [v|] eqn:Hcol.
    + rewrite filter_cons_True by (by rewrite Hcol).
      destruct (IH (<[col:=v]> na) (frags ++ [setstring col]) true)
        as (na' & -> & Hna).
      exists na'. rewrite <- (assoc_L (++)), fmap_cons.
      rewrite orb_true_r. split; [done|].
      intros k. rewrite Hna.
      destruct (decide (k ∈ whitelist ∧ is_Some (M !! k))) as [[Hin Hk]|Hn].
      * rewrite decide_True; [done|]. split; [|done].
        by apply list_elem_of_further.
      * destruct (decide (k = col)) as [->|Hne].
        -- rewrite lookup_insert_eq, decide_True; [done|].
           split; [apply list_elem_of_here|by rewrite Hcol].
        -- rewrite lookup_insert_ne by done. rewrite decide_False; [done|].
           intros [[->|Hin]%elem_of_cons Hk]; [done|]. by apply Hn.
    + rewrite filter_cons_False by (rewrite Hcol; by intros [? ?]).
      destruct (IH na frags patched) as (na' & -> & Hna).
      exists na'. split; [done|].
      intros k. rewrite Hna.
      destruct (decide (k ∈ whitelist ∧ is_Some (M !! k))) as [[Hin Hk]|Hn].
      * rewrite decide_True; [done|]. split; [|done].
        by apply list_elem_of_further.
      * rewrite decide_False; [done|].
        intros [[->|Hin]%elem_of_cons Hk]; [|by apply Hn].
        rewrite Hcol in Hk. by destruct Hk.
Qed.

Lemma Sprintf_used_percent_free (t operand : string) :
  percent_free t = true → Sprintf t operand true = t.
Proof.
  induction t as [|ch t IH]; [done|]. simpl.
  intros [Hch Ht]%andb_true_iff. apply negb_true_iff in Hch.
  rewrite Hch. f_equal. by apply IH.
Qed.

Lemma Sprintf_single_verb (pre post operand : string) :
  percent_free pre = true → percent_free post = true →
  Sprintf (pre +:+ "%s" +:+ post) operand false = pre +:+ operand +:+ post.
Proof.
  intros Hpre Hpost. induction pre as [|ch pre IH].
  - simpl. by rewrite Sprintf_used_percent_free.
  - simpl in Hpre. apply andb_true_iff in Hpre as [Hch Hpre].
    apply negb_true_iff in Hch.
    change (Sprintf (String ch (pre +:+ "%s" +:+ post)) operand false
            = String ch (pre +:+ operand +:+ post)).
    cbn [Sprintf]. rewrite Hch. f_equal. by apply IH.
Qed.

(** C4 (as amended): run on a context and followed by a further stage, the
    patch stage succeeds exactly when some whitelisted name is a key of the
    input map, and fails with the nothing-patched error otherwise, leaving
    the store as it is. On success there is one fragment [col = :col] per
    entry of the whitelist that is a key of the input map, in whitelist
    order (so one per key when the whitelist repeats no name); the
    named-parameter map gains exactly those keys, with the values of the
    input map; the template becomes [Sprintf] of itself with the fragments
    joined by a comma and a space, which for a template with a single [%s]
    puts them in its place. *)
Theorem patchFilter_fragments whitelist M c h ctx nextPipe restPipes :
  h !! ctx = Some c →
  let present := filter (λ col, is_Some (M !! col)) whitelist in
  let fragments := (λ col, col +:+ " = :" +:+ col) <$> present in
  let r := call (StageInput (PatchFilterPipe whitelist) ctx
                   (nextPipe :: restPipes)) [Some M] h in
  (succeeds r ↔ ∃ col, col ∈ whitelist ∧ is_Some (M !! col)) ∧
  (¬ succeeds r → r = Done (h, (None, None, Some EmptyPatchError))) ∧
  (succeeds r →
     ∃ na,
       r = Done (<[ctx := {| query := Sprintf (query c) (Join fragments ", ") false;
                             nameArgs := na;
                             args := args c |}]> h,
                 (Some ctx, Some (StageInput nextPipe ctx restPipes), None))
       ∧ ∀ k, na !! k =
           if decide (k ∈ whitelist ∧ is_Some (M !! k)) then M !! k
           else nameArgs c !! k) ∧
  (NoDup whitelist → NoDup present) ∧
  (∀ pre post, percent_free pre = true → percent_free post = true →
     query c = pre +:+ "%s" +:+ post →
     Sprintf (query c) (Join fragments ", ") false
     = pre +:+ Join fragments ", " +:+ post).
Proof.
  intros Hc present fragments r.
  change fragments with (setstring <$> present) in *.
  assert (Hr : r = if bool_decide (present ≠ [])
                   then match patch_cols whitelist M (nameArgs c) [] false with
                        | (na, _, _) =>
                            Done (<[ctx := {| query := Sprintf (query c)
                                                (Join fragments ", ") false;
                                              nameArgs := na;
                                              args := args c |}]> h,
                                  (Some ctx,
                                   Some (StageInput nextPipe ctx restPipes),
                                   None))
                        end
                   else Done (h, (None, None, Some EmptyPatchError))).
  { subst r. simpl. rewrite Hc.
    destruct (patch_cols_spec whitelist M (nameArgs c) [] false)
      as (na & -> & _). simpl. fold present. by case_bool_decide. }
  destruct (patch_cols_spec whitelist M (nameArgs c) [] false)
    as (na & Hpc & Hna). rewrite Hpc in Hr. clear Hpc.
  assert (Hex : present ≠ [] ↔ ∃ col, col ∈ whitelist ∧ is_Some (M !! col)).
  { split.
    - intros Hne. destruct present as [|col l] eqn:Hp; [done|].
      exists col. assert (Hin : col ∈ present) by (rewrite Hp; left).
      apply list_elem_of_filter in Hin as [? ?]. done.
    - intros (col & Hin & Hcol) Hnil.
      assert (Hp : col ∈ present) by (by apply list_elem_of_filter).
      rewrite Hnil in Hp. by apply elem_of_nil in Hp. }
  assert (Hsucc : succeeds r ↔ present ≠ []).
  { rewrite Hr. case_bool_decide as Hp.
    - split; [done|]. intros _. by eexists _, _, _.
    - split; [|done]. by intros (? & ? & ? & ?). }
  repeat split.
  - intros Hs. apply Hex. by apply Hsucc.
  - intros Hs. apply Hsucc. by apply Hex.
  - intros Hs. rewrite Hr. case_bool_decide as Hp; [|done].
    destruct Hs. by apply Hsucc.
  - intros Hs. apply Hsucc in Hs. exists na. split; [|done].
    rewrite Hr. by rewrite bool_decide_eq_true_2.
  - intros Hnd. by apply NoDup_filter.
  - intros pre post Hpre Hpost ->. by apply Sprintf_single_verb.
Qed.

(** *** The build stage *)

Lemma bindMapArgs_first_unbound pre name post (arg : StringMap V) :
  (∀ k, k ∈ pre → is_Some (arg !! k)) → arg !! name = None →
  bindMapArgs (pre ++ name :: post) arg = inl (ParameterBindingError name).
Proof.
  induction pre as [|k pre IH]; intros Hpre Hnone.
  - cbn [app bindMapArgs]. by rewrite Hnone.
  - destruct (Hpre k) as [v Hv]; [left|].
    change ((k :: pre) ++ name :: post) with (k :: (pre ++ name :: post)).
    cbn [bindMapArgs]. rewrite Hv, IH; [done| |done].
    intros k' Hk'. apply Hpre. by right.
Qed.

Lemma bindMapArgs_bound names (arg : StringMap V) : ∀ vals,
  Forall2 (λ name v, arg !! name = Some v) names vals →
  bindMapArgs names arg = inr vals.
Proof.
  induction names as [|name names IH]; intros vals Hf.
  - by apply Forall2_nil_inv_l in Hf as ->.
  - apply Forall2_cons_inv_l in Hf as (v & vals' & Hv & Hf & ->).
    cbn [bindMapArgs]. by rewrite Hv, (IH vals').
Qed.

(** C7: every template reads as literal text and named placeholders
    [text :name1 text1 ... :namek textk], and for every such reading of the
    template of the context: when a placeholder has no entry in the
    named-parameter map and all placeholders to its left have one, the build
    stage returns the binding error for that name, no context, and leaves
    the store as it is; when the positional values are the entries of the
    placeholders, one for each and in template order, it returns the
    context, whose template is now [text ? text1 ... ? textk] and whose
    positional list is these values. The rewritten template has no named
    placeholder left. *)
Theorem finalize_binds_placeholders c h ctx pipes (callArgs : list (StringMapPtr V)) :
  h !! ctx = Some c →
  let r := call (StageInput BuildQueryPipe ctx pipes) callArgs h in
  (∃ text segs,
     well_formed text segs = true ∧ query c = render_named text segs) ∧
  (∀ text segs,
     well_formed text segs = true → query c = render_named text segs →
     (∀ pre name text' post,
        segs = pre ++ (name, text') :: post →
        (∀ seg, seg ∈ pre → is_Some (nameArgs c !! seg.1)) →
        nameArgs c !! name = None →
        r = Done (h, (None, None, Some (ParameterBindingError name)))) ∧
     (∀ vals,
        Forall2 (λ seg v, nameArgs c !! seg.1 = Some v) segs vals →
        r = Done (<[ctx := {| query := render_positional text segs;
                              nameArgs := nameArgs c;
                              args := vals |}]> h,
                  (Some ctx, None, None))) ∧
     (∀ text' segs',
        well_formed text' segs' = true →
        render_positional text segs = render_named text' segs' →
        segs' = [])).
Proof.
  intros Hc. simpl. rewrite Hc. unfold Named. split.
  { apply every_template_reads. }
  intros text segs Hwf Hq. unfold placeholders, positional.
  rewrite Hq, compile_render by done. cbn [fst snd]. split; [|split].
  - intros pre name text' post -> Hpre Hnone.
    rewrite fmap_app, fmap_cons. cbn [fst].
    rewrite bindMapArgs_first_unbound; [done| |done].
    intros k (seg & -> & Hseg)%list_elem_of_fmap. by apply Hpre.
  - intros vals Hf.
    rewrite (bindMapArgs_bound _ _ vals); [done|].
    by apply Forall2_fmap_l.
  - intros text' segs' Hwf' Heq.
    pose proof (placeholders_positional (render_named text segs)) as Hp.
    unfold placeholders, positional in Hp.
    rewrite (compile_render segs text Hwf) in Hp. cbn [fst] in Hp.
    rewrite Heq, (compile_render segs' text' Hwf') in Hp. cbn [snd] in Hp.
    by apply fmap_nil_inv in Hp.
Qed.

(** *** What a call does to the store and what it returns *)

Lemma ensure_cols_grows required M : ∀ c c' err,
  ensure_cols required M c = (c', err) →
  query c' = query c ∧ args c' = args c
  ∧ dom (nameArgs c) ⊆ dom (nameArgs c').
Proof.
  induction required as [|col required IH]; intros c c' err; simpl.
  - by intros [= <- <-].
  - destruct (M !! col) as [v|]; [|by intros [= <- <-]].
    intros (Hq & Ha & Hd)%IH. simpl in *. split; [done|]. split; [done|].
    etrans; [|exact Hd]. apply dom_insert_subseteq.
Qed.

Lemma run_pipe_store pipe l pipes (callArgs : list (StringMapPtr V)) h h' r :
  run_pipe pipe l pipes callArgs h = Done (h', r) →
  ∃ c c', h !! l = Some c ∧ h' = <[l := c']> h
    ∧ dom (nameArgs c) ⊆ dom (nameArgs c')
    ∧ (args c' = args c ∨ pipe = BuildQueryPipe).
Proof.
  destruct pipe as [required|whitelist|]; simpl.
  - destruct callArgs as [|ptr ?]; [done|].
    destruct (h !! l) as [c|] eqn:Hl; [|done].
    destruct (deref ptr required) as [M|?]; [|done].
    destruct (ensure_cols required M c) as [c' err] eqn:He.
    apply ensure_cols_grows in He as (_ & Ha & Hd).
    intros Hr. exists c, c'. split; [done|].
    split; [|split; [done|by left]].
    destruct err; [congruence|]. destruct pipes; [done|].
    simpl in Hr. congruence.
  - destruct callArgs as [|ptr ?]; [done|].
    destruct (h !! l) as [c|] eqn:Hl; [|done].
    destruct (deref ptr whitelist) as [M|?]; [|done].
    destruct (patch_cols_spec whitelist M (nameArgs c) [] false)
      as (na & -> & Hna).
    destruct (negb _).
    + intros [= <- <-]. exists c, c. split; [done|].
      split; [symmetry; by apply list_insert_id|]. split; [done|by left].
    + destruct pipes; [done|]. simpl. intros [= <- <-].
      eexists c, _. split; [done|]. split; [done|]. simpl.
      split; [|by left].
      apply elem_of_subseteq. intros k. rewrite !elem_of_dom, Hna.
      case_decide as Hk; [|done]. intros _. by destruct Hk.
  - destruct (h !! l) as [c|] eqn:Hl; [|done].
    destruct (Named (query c) (nameArgs c)) as [err|[q a]].
    + intros [= <- <-]. exists c, c. split; [done|].
      split; [symmetry; by apply list_insert_id|]. split; [done|by left].
    + intros [= <- <-]. eexists c, _. split; [done|]. split; [done|].
      split; [done|by right].
Qed.

Lemma run_pipe_next pipe l pipes (callArgs : list (StringMapPtr V)) h h' ctx' next err :
  run_pipe pipe l pipes callArgs h = Done (h', (ctx', Some next, err)) →
  ∃ nextPipe restPipes, pipes = nextPipe :: restPipes
    ∧ next = StageInput nextPipe l restPipes ∧ ctx' = Some l ∧ err = None
    ∧ pipe ≠ BuildQueryPipe.
Proof.
  destruct pipe as [required|whitelist|]; simpl.
  - destruct callArgs as [|ptr ?]; [done|]. destruct (h !! l); [|done].
    destruct (deref ptr required) as [M|?]; [|done].
    destruct (ensure_cols required M _) as [c' [e|]]; [done|].
    destruct pipes as [|nextPipe restPipes]; [done|]. simpl.
    intros [= <- <- <- <-]. by eexists _, _.
  - destruct callArgs as [|ptr ?]; [done|]. destruct (h !! l); [|done].
    destruct (deref ptr whitelist) as [M|?]; [|done].
    destruct (patch_cols _ _ _ _ _) as [[na frags] patched].
    destruct (negb _); [done|].
    destruct pipes as [|nextPipe restPipes]; [done|]. simpl.
    intros [= <- <- <- <-]. by eexists _, _.
  - destruct (h !! l); [|done]. by destruct (Named _ _) as [?|[? ?]].
Qed.

Lemma call_next p (callArgs : list (StringMapPtr V)) h h' ctx' next err :
  call p callArgs h = Done (h', (ctx', Some next, err)) →
  S (stages next) = stages p.
Proof.
  destruct p as [|makeCtx firstPipe restPipes|pipe l pipes]; simpl.
  - done.
  - destruct (make_ctx makeCtx h) as [h1 l].
    intros (? & ? & -> & -> & _)%run_pipe_next. done.
  - intros (? & ? & -> & -> & _)%run_pipe_next. done.
Qed.

(** Every call leaves the contexts of the store in place, never removes a
    key of a named-parameter map, and changes a positional list only when it
    is the build stage running on that context. *)
Lemma call_grows p (callArgs : list (StringMapPtr V)) h h' r :
  call p callArgs h = Done (h', r) →
  ∀ l c, h !! l = Some c →
    ∃ c', h' !! l = Some c'
      ∧ dom (nameArgs c) ⊆ dom (nameArgs c')
      ∧ (args c' = args c ∨ ∃ pipes, p = StageInput BuildQueryPipe l pipes).
Proof.
  destruct p as [|makeCtx firstPipe restPipes|pipe l0 pipes]; simpl.
  - intros [= <- <-] l c Hl. exists c. split; [done|]. split; [done|by left].
  - destruct makeCtx as [baseQuery]. simpl.
    intros (c0 & c0' & Hl0 & -> & _)%run_pipe_store l c Hl.
    exists c. split; [|split; [done|by left]].
    pose proof (lookup_lt_Some _ _ _ Hl) as Hlt.
    rewrite list_lookup_insert_ne by lia. by rewrite lookup_app_l.
  - intros (c0 & c0' & Hl0 & -> & Hd & Ha)%run_pipe_store l c Hl.
    destruct (decide (l = l0)) as [->|Hne].
    + exists c0'. assert (c = c0) as -> by congruence.
      split; [|split; [done|]].
      * apply list_lookup_insert_eq. by eapply lookup_lt_Some.
      * destruct Ha as [Ha| ->]; [by left|]. right. by exists pipes.
    + exists c. rewrite list_lookup_insert_ne by done.
      split; [done|]. split; [done|by left].
Qed.

(** *** The loop of [QueryApply] *)

Lemma stages_pos (p : PipeInput) : 1 ≤ stages p.
Proof. destruct p; simpl; lia. Qed.

Lemma loop_step_inv (maps : list (StringMapPtr V)) s s' :
  loop_step maps s s' →
  ∃ p callArgs, currentPipe s = Some p
    ∧ call p callArgs (store s) = Done (store s', (ctx s', currentPipe s', None))
    ∧ idx s' ≤ S (idx s).
Proof.
  unfold loop_step, loop_body.
  destruct (currentPipe s) as [p|]; [|by repeat case_match].
  destruct (maps !! idx s) as [m|].
  - destruct (call p [m] (store s)) as [[h' [[c' n] [e|]]]|] eqn:Hcall; [done| |done].
    intros [= <-]. exists p, [m]. simpl. split; [done|]. split; [done|]. lia.
  - destruct (call p [] (store s)) as [[h' [[c' n] [e|]]]|] eqn:Hcall; [done| |done].
    intros [= <-]. exists p, []. simpl. split; [done|]. split; [done|]. lia.
Qed.

Lemma loop_step_remaining (maps : list (StringMapPtr V)) s s' :
  loop_step maps s s' → remaining s' < remaining s.
Proof.
  intros (p & a & Hp & Hcall & _)%loop_step_inv. unfold remaining.
  rewrite Hp. destruct (currentPipe s') as [n|].
  - apply call_next in Hcall. lia.
  - pose proof (stages_pos p). lia.
Qed.

(** The loop returns within one turn more than the stages left to run. *)
Lemma QueryApply_loop_returns (maps : list (StringMapPtr V)) fuel : ∀ s,
  remaining s < fuel → is_Some (QueryApply_loop fuel maps s).
Proof.
  induction fuel as [|fuel IH]; intros s Hf; [lia|]. simpl.
  destruct (loop_body maps s) as [[s'|r]|] eqn:Hb;
    [|unfold is_Some; eauto..].
  apply IH. apply loop_step_remaining in Hb. lia.
Qed.

(** More fuel than that does not change what the loop returns. *)
Lemma QueryApply_loop_fuel (maps : list (StringMapPtr V)) fuel : ∀ s fuel' r,
  QueryApply_loop fuel maps s = Some r → fuel ≤ fuel' →
  QueryApply_loop fuel' maps s = Some r.
Proof.
  induction fuel as [|fuel IH]; intros s fuel' r; [done|].
  destruct fuel' as [|fuel']; [lia|]. simpl.
  destruct (loop_body maps s) as [[s'|?]|]; [|done..].
  intros Hr Hle. apply (IH s'); [done|lia].
Qed.

(** X20: [QueryApply] always returns (a result or a panic): its loop ends
    within one turn per stage of the chain, and one more. *)
Theorem QueryApply_returns pipe (maps : list (StringMapPtr V)) h :
  is_Some (QueryApply pipe maps h).
Proof. apply QueryApply_loop_returns. unfold remaining, start. cbn [currentPipe]. lia. Qed.

Lemma loop_body_take (maps : list (StringMapPtr V)) s n :
  idx s + remaining s ≤ n → loop_body (take n maps) s = loop_body maps s.
Proof.
  unfold loop_body, remaining. destruct (currentPipe s) as [p|]; [|done].
  intros Hn. pose proof (stages_pos p). by rewrite lookup_take_lt by lia.
Qed.

Lemma QueryApply_loop_take (maps : list (StringMapPtr V)) n fuel : ∀ s,
  idx s + remaining s ≤ n →
  QueryApply_loop fuel (take n maps) s = QueryApply_loop fuel maps s.
Proof.
  induction fuel as [|fuel IH]; intros s Hn; [done|]. simpl.
  rewrite loop_body_take by done.
  destruct (loop_body maps s) as [[s'|r]|] eqn:Hb; [|done..].
  apply IH. pose proof (loop_step_remaining _ _ _ Hb).
  apply loop_step_inv in Hb as (_ & _ & _ & _ & Hi). lia.
Qed.

(** C10: [QueryApply] reads at most as many maps as the pipeline has stages:
    the maps after them have no influence on what it returns. *)
Theorem QueryApply_ignores_extra_maps pipe (maps : list (StringMapPtr V)) h :
  QueryApply pipe maps h = QueryApply pipe (take (stages pipe) maps) h.
Proof.
  symmetry. apply QueryApply_loop_take.
  unfold remaining, start. cbn [currentPipe idx]. lia.
Qed.

Lemma QueryApply_patch_without_map baseQuery h (M : StringMap V)
    required whitelist pipes :
  (∀ col, col ∈ required → is_Some (M !! col)) →
  QueryApply (composePipes (MakeCtxMaker baseQuery)
                (EnsureInputColsPipe required
                   :: PatchFilterPipe whitelist :: pipes)) [Some M] h
  = Some (Panicked IndexOutOfRange).
Proof.
  intros Hall.
  unfold QueryApply. cbn [QueryApply_loop stages composePipes length].
  unfold loop_body at 1. cbn [start currentPipe idx store lookup list_lookup].
  cbn [call make_ctx run_pipe deref]. rewrite lookup_fresh.
  destruct (ensure_cols_all_present required M
              {| query := baseQuery; nameArgs := ∅; args := [] |} Hall)
    as (na & -> & _).
  cbn [pass_on]. cbn [QueryApply_loop]. unfold loop_body at 1.
  cbn [currentPipe idx store lookup list_lookup]. done.
Qed.

(** C6: run without a map for a stage that reads one, [QueryApply] does not
    return the missing-column error: the stage indexes the empty argument
    list and the call panics. This is so when the first stage of a chain has
    no map ([FETCH_DECK_QUERY] without map), and when a later stage has none
    ([UPDATE_DECK_QUERY] with the map of its first stage only). *)
Theorem QueryApply_missing_map_panics baseQuery cols restPipes h (v : V) :
  QueryApply (composePipes (MakeCtxMaker baseQuery)
                (EnsureInputColsPipe cols :: restPipes)) [] h
    = Some (Panicked IndexOutOfRange)
  ∧ QueryApply (composePipes (MakeCtxMaker baseQuery)
                  (PatchFilterPipe cols :: restPipes)) [] h
    = Some (Panicked IndexOutOfRange)
  ∧ QueryApply FETCH_DECK_QUERY [] h = Some (Panicked IndexOutOfRange)
  ∧ QueryApply UPDATE_DECK_QUERY [Some {["deck_id" := v]}] h
    = Some (Panicked IndexOutOfRange).
Proof.
  split; [done|]. split; [done|]. split; [done|].
  apply QueryApply_patch_without_map.
  intros col ->%list_elem_of_singleton. rewrite lookup_singleton_eq. by eexists.
Qed.

(** *** The context during one invocation *)

Lemma run_pipe_keeps pipe l pipes (callArgs : list (StringMapPtr V)) h h' c ctx' next :
  h !! l = Some c → args c = [] →
  run_pipe pipe l pipes callArgs h = Done (h', (ctx', Some next, None)) →
  ∃ pipe' pipes' c', next = StageInput pipe' l pipes' ∧ ctx' = Some l
    ∧ h' !! l = Some c' ∧ args c' = [].
Proof.
  intros Hl Hargs Hrun.
  destruct (run_pipe_next _ _ _ _ _ _ _ _ _ Hrun)
    as (pipe' & pipes' & _ & -> & -> & _ & Hnb).
  destruct (run_pipe_store _ _ _ _ _ _ _ Hrun) as (c0 & c' & Hl0 & -> & _ & Ha).
  exists pipe', pipes', c'. split; [done|]. split; [done|]. split.
  - apply list_lookup_insert_eq. by eapply lookup_lt_Some.
  - destruct Ha as [Ha|?]; [|done]. congruence.
Qed.

(** C9: at every point of an invocation where a stage is still to be run
    (the build stage ends the chain, so it has not run yet), the context of
    the invocation has an empty positional list; and whatever a call from
    such a point returns, it removes no key from a named-parameter map and
    changes a positional list only when it is the build stage. *)
Theorem positional_empty_until_build baseQuery pipes
    (maps : list (StringMapPtr V)) h s :
  rtc (loop_step maps)
      (start (composePipes (MakeCtxMaker baseQuery) pipes) h) s →
  (is_Some (currentPipe s) →
     s = start (composePipes (MakeCtxMaker baseQuery) pipes) h
     ∨ ∃ c, ctx s = Some (length h) ∧ store s !! length h = Some c
            ∧ args c = []) ∧
  (∀ p callArgs h' r,
     currentPipe s = Some p → call p callArgs (store s) = Done (h', r) →
     ∀ l c, store s !! l = Some c →
       ∃ c', h' !! l = Some c'
         ∧ dom (nameArgs c) ⊆ dom (nameArgs c')
         ∧ (args c' = args c
            ∨ ∃ pipes', p = StageInput BuildQueryPipe l pipes')).
Proof.
  intros Hrtc. split; [|intros p a h' r _ Hcall; by eapply call_grows].
  assert (Hinv : in_flight
            (start (composePipes (MakeCtxMaker baseQuery) pipes) h) (length h) s).
  { revert s Hrtc. apply rtc_ind_r; [by left|].
    intros s s' Hs Hstep IH.
    right. apply loop_step_inv in Hstep as (p & a & Hp & Hcall & _).
    destruct (currentPipe s') as [next|] eqn:Hnext; [right|by left].
    destruct IH as [->|[Hnone|(pipe & pipes' & c & Hcur & Hctx & Hl & Ha)]].
    - simpl in Hp. injection Hp as <-.
      destruct pipes as [|firstPipe restPipes]; simpl in Hcall; [done|].
      eapply run_pipe_keeps in Hcall as (pipe' & pipes' & c' & -> & ? & ? & ?);
        [|apply lookup_fresh|done].
      by exists pipe', pipes', c'.
    - congruence.
    - rewrite Hcur in Hp. injection Hp as <-. simpl in Hcall.
      eapply run_pipe_keeps in Hcall as (pipe' & pipes'' & c' & -> & ? & ? & ?);
        [|done..].
      by exists pipe', pipes'', c'. }
  intros [p Hp].
  destruct Hinv as [?|[?|(pipe & pipes' & c & _ & ? & ? & ?)]];
    [by left|congruence|right; by exists c].
Qed.

End Stages.

(** *** The stages on concrete inputs *)

Lemma requireColumns_missing_column_witness :
  let c0 : QueryContext nat := {| query := "q"; nameArgs := ∅; args := [] |} in
  ∃ na : StringMap nat,
    call (StageInput (EnsureInputColsPipe (["a"] ++ "b" :: [])) 0
            [BuildQueryPipe]) [Some {["a" := 1]}] [c0]
    = Done (<[0 := {| query := "q"; nameArgs := na; args := [] |}]> [c0],
            (None, None, Some (MissingColumnError "b" "q")))
    ∧ (∀ k, na !! k = if decide (k ∈ ["a"])
                      then ({["a" := 1]} : StringMap nat) !! k
                      else (∅ : StringMap nat) !! k)
    ∧ (["a"] = [] → na = ∅).
Proof.
  apply (requireColumns_missing_column ["a"] "b" [] {["a" := 1]}
           {| query := "q"; nameArgs := ∅; args := [] |}).
  - reflexivity.
  - intros k Hk. apply list_elem_of_singleton in Hk. rewrite Hk.
    vm_compute. eauto.
  - vm_compute. reflexivity.
Defined.

(** The required-columns stage copies as it checks: with [a] present and [b]
    missing, the entry of [a] is in the named-parameter map when the stage
    returns the error for [b]. *)
Lemma requireColumns_partial_copy :
  let c0 : QueryContext nat := {| query := "q"; nameArgs := ∅; args := [] |} in
  call (StageInput (EnsureInputColsPipe ["a"; "b"]) 0 [BuildQueryPipe])
       [Some {["a" := 1]}] [c0]
  = Done ([{| query := "q"; nameArgs := {["a" := 1]}; args := [] |}],
          (None, None, Some (MissingColumnError "b" "q")))
  ∧ ({["a" := 1]} : StringMap nat) ≠ nameArgs c0.
Proof.
  split.
  - vm_compute. reflexivity.
  - intros Heq. apply (f_equal (λ m : StringMap nat, m !! "a")) in Heq.
    vm_compute in Heq. discriminate.
Qed.

Lemma patchFilter_fragments_witness :
  let c0 : QueryContext nat :=
    {| query := "SET %s WHERE deck_id = :deck_id";
       nameArgs := {["deck_id" := 7]}; args := [] |} in
  succeeds (call (StageInput (PatchFilterPipe ["name"]) 0 [BuildQueryPipe])
                 [Some {["name" := 9]}] [c0]).
Proof.
  apply (patchFilter_fragments ["name"] {["name" := 9]}
           {| query := "SET %s WHERE deck_id = :deck_id";
              nameArgs := {["deck_id" := 7]}; args := [] |}
           [_] 0 BuildQueryPipe []).
  - reflexivity.
  - exists "name". split; [apply list_elem_of_here|]. vm_compute. eauto.
Defined.

(** A whitelist that names a column twice yields two fragments for the one
    key it shares with the input map. *)
Lemma patchFilter_repeated_name :
  let M : StringMap nat := {["name" := 1]} in
  let c0 : QueryContext nat :=
    {| query := "SET %s"; nameArgs := ∅; args := [] |} in
  call (StageInput (PatchFilterPipe ["name"; "name"]) 0 [BuildQueryPipe])
       [Some M] [c0]
  = Done ([{| query := "SET name = :name, name = :name"; nameArgs := M;
              args := [] |}],
          (Some 0, Some (StageInput BuildQueryPipe 0 []), None))
  ∧ (patch_cols ["name"; "name"] M ∅ [] false).1.2
    = ["name = :name"; "name = :name"]
  ∧ size (dom M ∩ list_to_set ["name"; "name"] : gset string) = 1.
Proof. repeat split; vm_compute; reflexivity. Qed.

Lemma finalize_binds_placeholders_witness :
  let c0 : QueryContext nat :=
    {| query := "WHERE deck_id = :deck_id;";
       nameArgs := {["deck_id" := 7]}; args := [] |} in
  call (StageInput BuildQueryPipe 0 []) [] [c0]
  = Done ([{| query := "WHERE deck_id = ?;"; nameArgs := nameArgs c0;
              args := [7] |}],
          (Some 0, None, None)).
Proof.
  intros c0.
  destruct (finalize_binds_placeholders c0 [c0] 0 [] [] eq_refl)
    as (_ & Hreading).
  destruct (Hreading "WHERE deck_id = " [("deck_id", ";")] eq_refl eq_refl)
    as (_ & Hbound & _).
  apply (Hbound [7]). repeat constructor.
Defined.

Lemma positional_empty_until_build_witness :
  let s : loop_state nat :=
    {| currentPipe := Some (StageInput BuildQueryPipe 0 []);
       ctx := Some 0; idx := 1;
       store := [{| query := "WHERE deck_id = :deck_id;";
                    nameArgs := {["deck_id" := 7]}; args := [] |}] |} in
  ∃ c, ctx s = Some 0 ∧ store s !! 0 = Some c ∧ args c = [].
Proof.
  intros s.
  destruct (positional_empty_until_build "WHERE deck_id = :deck_id;"
              [EnsureInputColsPipe ["deck_id"]; BuildQueryPipe]
              [Some {["deck_id" := 7]}] [] s) as [Hbefore _].
  - apply rtc_once. vm_compute. reflexivity.
  - destruct Hbefore as [Hstart|Hc].
    + vm_compute. eauto.
    + discriminate Hstart.
    + exact Hc.
Defined.

(** The catalog on concrete inputs. *)
Example fetch_deck_applied :
  QueryApply FETCH_DECK_QUERY [Some ({["deck_id" := 7]} : StringMap nat)] []
  = Some (Done ("
    SELECT deck_id, name FROM Decks WHERE deck_id = ?;
    ", [7], None)).
Proof. vm_compute. reflexivity. Qed.

Example update_deck_applied :
  QueryApply UPDATE_DECK_QUERY
    [Some ({["deck_id" := 7]} : StringMap nat); Some {["name" := 9; "other" := 3]}] []
  = Some (Done ("
    UPDATE Decks
    SET
    name = ?
    WHERE deck_id = ?
    ", [9; 7], None)).
Proof. vm_compute. reflexivity. Qed.

Example update_deck_nothing_patched :
  QueryApply UPDATE_DECK_QUERY
    [Some ({["deck_id" := 7]} : StringMap nat); Some {["other" := 3]}] []
  = Some (Done ("", [], Some EmptyPatchError)).
Proof. vm_compute. reflexivity. Qed.

Example associate_applied :
  QueryApply ASSOCIATE_DECK_AS_CHILD_QUERY
    [Some ({["parent" := 1; "child" := 2]} : StringMap nat)] []
  = Some (Done (positional "
    INSERT OR IGNORE INTO DecksClosure(ancestor, descendent, depth)

    /* for every ancestor of parent, make it an ancestor of child */
    SELECT t.ancestor, :child, t.depth+1
    FROM DecksClosure AS t
    WHERE t.descendent = :parent

    UNION ALL

    /* child is an ancestor of itself with a depth of 0 */
    SELECT :child, :child, 0;
    ", [2; 1; 2; 2], None)).
Proof. vm_compute. reflexivity. Qed.

(** *** Whole chains *)

Section Chains.
Context {V : Type}.
Implicit Types (M patch : StringMap V) (c : QueryContext V) (h : heap V).
Implicit Types (required whitelist : list string) (pipes : list Pipe).
Implicit Types (maps : list (StringMapPtr V)) (s : loop_state V).

Lemma lookup_filter_keys (cols : list string) M k :
  filter (λ kv, kv.1 ∈ cols) M !! k = if decide (k ∈ cols) then M !! k else None.
Proof.
  destruct (M !! k) as [v|] eqn:Hk.
  - case_decide.
    + by apply map_lookup_filter_Some.
    + apply map_lookup_filter_None. right. intros ? _. done.
  - assert (filter (λ kv, kv.1 ∈ cols) M !! k = None) as ->; [|by case_decide].
    apply map_lookup_filter_None. by left.
Qed.

Lemma ensure_cols_union required M c :
  (∀ col, col ∈ required → is_Some (M !! col)) →
  ensure_cols required M c
  = ({| query := query c;
        nameArgs := filter (λ kv, kv.1 ∈ required) M ∪ nameArgs c;
        args := args c |}, None).
Proof.
  intros Hall.
  destruct (ensure_cols_all_present required M c Hall) as (na & -> & Hna).
  do 2 f_equal. apply map_eq. intros k.
  rewrite Hna, lookup_union, lookup_filter_keys.
  case_decide as Hk; [|by rewrite (left_id_L None _)].
  destruct (Hall k Hk) as [v ->]. by destruct (nameArgs c !! k).
Qed.

Lemma patch_cols_union whitelist M (na : StringMap V) :
  patch_cols whitelist M na [] false
  = (filter (λ kv, kv.1 ∈ whitelist) M ∪ na,
     setstring <$> filter (λ col, is_Some (M !! col)) whitelist,
     bool_decide (filter (λ col, is_Some (M !! col)) whitelist ≠ [])).
Proof.
  destruct (patch_cols_spec whitelist M na [] false) as (na' & -> & Hna).
  do 2 f_equal. apply map_eq. intros k.
  rewrite Hna, lookup_union, lookup_filter_keys.
  destruct (decide (k ∈ whitelist)) as [Hk|Hk].
  - destruct (M !! k) as [v|] eqn:HM.
    + rewrite decide_True by (split; [done|by eexists]).
      by destruct (na !! k).
    + rewrite decide_False by (intros [_ [? ?]]; done).
      by rewrite (left_id_L None _).
  - rewrite decide_False by (intros [? _]; done).
    by rewrite (left_id_L None _).
Qed.

(** X9: on any context, and followed by a further stage, the
    required-columns stage with every required name present copies the
    entries of the required names over the named-parameter map, keeps the
    entries of all other names, and leaves the template and the positional
    list as they are. *)
Theorem requireColumns_on_any_context required M c h l nextPipe restPipes :
  h !! l = Some c →
  (∀ col, col ∈ required → is_Some (M !! col)) →
  call (StageInput (EnsureInputColsPipe required) l (nextPipe :: restPipes))
       [Some M] h
  = Done (<[l := {| query := query c;
                    nameArgs := filter (λ kv, kv.1 ∈ required) M ∪ nameArgs c;
                    args := args c |}]> h,
          (Some l, Some (StageInput nextPipe l restPipes), None)).
Proof.
  intros Hl Hall. simpl. rewrite Hl, ensure_cols_union by done. done.
Qed.

Lemma filter_present_ext whitelist M M' :
  (∀ col, col ∈ whitelist → (is_Some (M !! col) ↔ is_Some (M' !! col))) →
  filter (λ col, is_Some (M !! col)) whitelist
  = filter (λ col, is_Some (M' !! col)) whitelist.
Proof.
  induction whitelist as [|col whitelist IH]; intros Hiff; [done|].
  rewrite !filter_cons, IH by (intros ? ?; apply Hiff; by right).
  destruct (Hiff col) as [H1 H2]; [left|].
  repeat case_decide; first [done|tauto].
Qed.

(** X10: the patch stage puts no value of the input map into the template:
    for two input maps that have the same whitelisted keys, the stage
    returns the same thing and leaves the same template. *)
Theorem patchFilter_text_depends_on_keys_only whitelist M M' c h l pipes :
  h !! l = Some c →
  (∀ col, col ∈ whitelist → (is_Some (M !! col) ↔ is_Some (M' !! col))) →
  match call (StageInput (PatchFilterPipe whitelist) l pipes) [Some M] h,
        call (StageInput (PatchFilterPipe whitelist) l pipes) [Some M'] h with
  | Done (h1, r1), Done (h2, r2) =>
      r1 = r2 ∧ query <$> h1 !! l = query <$> h2 !! l
  | Panicked p1, Panicked p2 => p1 = p2
  | _, _ => False
  end.
Proof.
  intros Hl Hkeys. simpl. rewrite Hl, !patch_cols_union.
  rewrite (filter_present_ext whitelist M M' Hkeys).
  destruct (negb _); [done|].
  destruct pipes as [|nextPipe restPipes]; simpl; [done|].
  split; [done|].
  pose proof (lookup_lt_Some _ _ _ Hl).
  by rewrite !list_lookup_insert_eq.
Qed.

(** The turns of the loop, stage by stage. *)

Lemma loop_first maps fuel baseQuery firstPipe restPipes ctx0 i h :
  QueryApply_loop fuel maps
    {| currentPipe := Some (FirstInput (MakeCtxMaker baseQuery) firstPipe restPipes);
       ctx := ctx0; idx := i; store := h |}
  = QueryApply_loop fuel maps
      {| currentPipe := Some (StageInput firstPipe (length h) restPipes);
         ctx := ctx0; idx := i;
         store := h ++ [{| query := baseQuery; nameArgs := ∅; args := [] |}] |}.
Proof. by destruct fuel. Qed.

Lemma loop_build maps fuel l pipes ctx0 i h c :
  h !! l = Some c →
  QueryApply_loop (S (S fuel)) maps
    {| currentPipe := Some (StageInput BuildQueryPipe l pipes);
       ctx := ctx0; idx := i; store := h |}
  = Some match Named (query c) (nameArgs c) with
         | inl err => Done (EmptyString, [], Some err)
         | inr (query', args') => Done (query', args', None)
         end.
Proof.
  intros Hl. pose proof (lookup_lt_Some _ _ _ Hl).
  cbn [QueryApply_loop]. unfold loop_body at 1.
  cbn [currentPipe idx store call run_pipe deref].
  destruct (maps !! i); rewrite Hl;
    (destruct (Named (query c) (nameArgs c)) as [err|[q a]]; [done|]);
    unfold loop_body; cbn [currentPipe ctx store];
    by rewrite list_lookup_insert_eq.
Qed.

Lemma loop_ensure_ok maps fuel required l nextPipe restPipes ctx0 i h c M :
  h !! l = Some c → maps !! i = Some (Some M) →
  (∀ col, col ∈ required → is_Some (M !! col)) →
  QueryApply_loop (S fuel) maps
    {| currentPipe := Some (StageInput (EnsureInputColsPipe required) l
                              (nextPipe :: restPipes));
       ctx := ctx0; idx := i; store := h |}
  = QueryApply_loop fuel maps
      {| currentPipe := Some (StageInput nextPipe l restPipes);
         ctx := Some l; idx := S i;
         store := <[l := {| query := query c;
                            nameArgs := filter (λ kv, kv.1 ∈ required) M
                                        ∪ nameArgs c;
                            args := args c |}]> h |}.
Proof.
  intros Hl Hi Hall. cbn [QueryApply_loop]. unfold loop_body at 1.
  cbn [currentPipe idx store call run_pipe]. rewrite Hi, Hl. cbn [deref].
  by rewrite ensure_cols_union.
Qed.

Lemma loop_ensure_missing maps fuel pre col post l pipes ctx0 i h c M :
  h !! l = Some c → maps !! i = Some (Some M) →
  (∀ k, k ∈ pre → is_Some (M !! k)) → M !! col = None →
  QueryApply_loop (S fuel) maps
    {| currentPipe := Some (StageInput (EnsureInputColsPipe (pre ++ col :: post))
                              l pipes);
       ctx := ctx0; idx := i; store := h |}
  = Some (Done (EmptyString, [], Some (MissingColumnError col (query c)))).
Proof.
  intros Hl Hi Hpre Hmiss. cbn [QueryApply_loop]. unfold loop_body at 1.
  cbn [currentPipe idx store call run_pipe]. rewrite Hi, Hl. cbn [deref].
  destruct (ensure_cols_first_missing pre col post M c Hpre Hmiss)
    as (na & -> & _). done.
Qed.

Lemma loop_patch maps fuel whitelist l nextPipe restPipes ctx0 i h c M :
  h !! l = Some c → maps !! i = Some (Some M) →
  QueryApply_loop (S fuel) maps
    {| currentPipe := Some (StageInput (PatchFilterPipe whitelist) l
                              (nextPipe :: restPipes));
       ctx := ctx0; idx := i; store := h |}
  = match filter (λ col, is_Some (M !! col)) whitelist with
    | [] => Some (Done (EmptyString, [], Some EmptyPatchError))
    | present =>
        QueryApply_loop fuel maps
          {| currentPipe := Some (StageInput nextPipe l restPipes);
             ctx := Some l; idx := S i;
             store := <[l := {| query := Sprintf (query c)
                                           (Join (setstring <$> present) ", ")
                                           false;
                                nameArgs := filter (λ kv, kv.1 ∈ whitelist) M
                                            ∪ nameArgs c;
                                args := args c |}]> h |}
    end.
Proof.
  intros Hl Hi. cbn [QueryApply_loop]. unfold loop_body at 1.
  cbn [currentPipe idx store call run_pipe]. rewrite Hi, Hl. cbn [deref].
  rewrite patch_cols_union.
  destruct (filter _ whitelist) as [|col present] eqn:Hf.
  - by rewrite bool_decide_eq_false_2 by (by intros []).
  - by rewrite bool_decide_eq_true_2 by done.
Qed.

(** X11: a chain without stage returns the empty statement, no value and no
    error, whatever maps it is given. *)
Theorem empty_chain_returns_nothing makeCtx maps h :
  QueryApply (composePipes makeCtx []) maps h
  = Some (Done (EmptyString, [], None)).
Proof.
  unfold QueryApply. cbn [composePipes stages QueryApply_loop].
  unfold loop_body. cbn [start currentPipe idx store call ctx].
  by destruct (maps !! 0).
Qed.

(** X12: the chain of a required-columns stage and the build stage, given a
    map with every required name, returns what [sqlx.Named] returns for the
    template and the entries of the required names, whatever else the map
    holds and whatever maps follow it. *)
Theorem require_then_build baseQuery required M maps h :
  (∀ col, col ∈ required → is_Some (M !! col)) →
  QueryApply (composePipes (MakeCtxMaker baseQuery)
                [EnsureInputColsPipe required; BuildQueryPipe]) (Some M :: maps) h
  = Some match Named baseQuery (filter (λ kv, kv.1 ∈ required) M) with
         | inl err => Done (EmptyString, [], Some err)
         | inr (query', args') => Done (query', args', None)
         end.
Proof.
  intros Hall. unfold QueryApply, start. cbn [composePipes stages length].
  rewrite loop_first.
  erewrite loop_ensure_ok; [|apply lookup_fresh|done|done].
  rewrite insert_fresh. cbn [query nameArgs args].
  erewrite loop_build; [|apply lookup_fresh].
  cbn [query nameArgs]. by rewrite (right_id_L ∅ (∪)).
Qed.

(** X13: the chain of the update statement (required columns, patch, build),
    given a first map with every required name: without whitelisted key in
    the second map it returns the nothing-patched error; otherwise it
    returns what [sqlx.Named] returns for the template with the fragments in
    place and for the entries of the required names overlaid with the
    whitelisted entries of the second map (those win on a shared name). *)
Theorem require_patch_then_build baseQuery required whitelist M1 M2 maps h :
  (∀ col, col ∈ required → is_Some (M1 !! col)) →
  QueryApply (composePipes (MakeCtxMaker baseQuery)
                [EnsureInputColsPipe required; PatchFilterPipe whitelist;
                 BuildQueryPipe]) (Some M1 :: Some M2 :: maps) h
  = Some match filter (λ col, is_Some (M2 !! col)) whitelist with
         | [] => Done (EmptyString, [], Some EmptyPatchError)
         | present =>
             match Named (Sprintf baseQuery (Join (setstring <$> present) ", ")
                            false)
                         (filter (λ kv, kv.1 ∈ whitelist) M2
                          ∪ filter (λ kv, kv.1 ∈ required) M1) with
             | inl err => Done (EmptyString, [], Some err)
             | inr (query', args') => Done (query', args', None)
             end
         end.
Proof.
  intros Hall. unfold QueryApply, start. cbn [composePipes stages length].
  rewrite loop_first.
  erewrite loop_ensure_ok; [|apply lookup_fresh|done|done].
  rewrite insert_fresh. cbn [query nameArgs args].
  erewrite loop_patch; [|apply lookup_fresh|done].
  destruct (filter _ whitelist) as [|col present]; [done|].
  rewrite insert_fresh. cbn [query nameArgs args].
  erewrite loop_build; [|apply lookup_fresh].
  cbn [query nameArgs]. by rewrite (right_id_L ∅ (∪)).
Qed.

(** X14: when the first stage is a required-columns stage and its map lacks
    a required name, [QueryApply] returns the missing-column error for the
    first such name, whatever stages and maps follow. *)
Theorem first_error_is_returned baseQuery pre col post pipes M maps h :
  (∀ k, k ∈ pre → is_Some (M !! k)) → M !! col = None →
  QueryApply (composePipes (MakeCtxMaker baseQuery)
                (EnsureInputColsPipe (pre ++ col :: post) :: pipes))
             (Some M :: maps) h
  = Some (Done (EmptyString, [], Some (MissingColumnError col baseQuery))).
Proof.
  intros Hpre Hmiss. unfold QueryApply, start. cbn [composePipes stages].
  rewrite loop_first.
  erewrite loop_ensure_missing; [|apply lookup_fresh|done|done|done]. done.
Qed.

Lemma loop_body_error maps s q a e :
  loop_body maps s = Done (inr (q, a, Some e)) → q = EmptyString ∧ a = [].
Proof.
  unfold loop_body. intros Hb.
  repeat case_match; simplify_eq; done.
Qed.

(** X15: [QueryApply] never returns a statement or values together with an
    error: when it returns an error, the statement is empty and there is no
    value. *)
Theorem error_comes_with_nothing pipe maps h q a e :
  QueryApply pipe maps h = Some (Done (q, a, Some e)) →
  q = EmptyString ∧ a = [].
Proof.
  unfold QueryApply. generalize (S (stages pipe)) (start pipe h).
  intros fuel. induction fuel as [|fuel IH]; intros s; [done|].
  cbn [QueryApply_loop].
  destruct (loop_body maps s) as [[s'|[[q' a'] [e'|]]]|] eqn:Hb;
    [by apply IH| |done..].
  intros Heq. simplify_eq. by eapply loop_body_error.
Qed.

Lemma run_pipe_last pipe l pipes (callArgs : list (StringMapPtr V)) h h' ctx' :
  run_pipe pipe l pipes callArgs h = Done (h', (ctx', None, None)) →
  pipe = BuildQueryPipe.
Proof.
  destruct pipe as [required|whitelist|]; [| |done]; simpl.
  - destruct callArgs as [|ptr ?]; [done|]. destruct (h !! l); [|done].
    destruct (deref ptr required) as [M|?]; [|done].
    destruct (ensure_cols required M _) as [c' [e|]]; [done|].
    by destruct pipes.
  - destruct callArgs as [|ptr ?]; [done|]. destruct (h !! l); [|done].
    destruct (deref ptr whitelist) as [M|?]; [|done].
    destruct (patch_cols _ _ _ _ _) as [[na frags] patched].
    destruct (negb _); [done|]. by destruct pipes.
Qed.

Lemma loop_success_needs_build maps fuel : ∀ s q a p,
  QueryApply_loop fuel maps s = Some (Done (q, a, None)) →
  currentPipe s = Some p →
  p = NoopInput ∨ BuildQueryPipe ∈ chain p.
Proof.
  induction fuel as [|fuel IH]; intros s q a p; [done|].
  cbn [QueryApply_loop].
  destruct (loop_body maps s) as [[s'|r]|] eqn:Hb; [|intros Hr Hp..].
  - intros Hr Hp.
    apply loop_step_inv in Hb as (p' & callArgs & Hp' & Hcall & _).
    assert (p' = p) as -> by congruence.
    destruct (currentPipe s') as [next|] eqn:Hnext.
    + destruct (IH s' q a next Hr Hnext) as [->|Hin].
      * destruct p as [|[baseQuery] firstPipe restPipes|pipe l pipes];
          simpl in Hcall; [done|..];
          by apply run_pipe_next in Hcall as (? & ? & _ & ? & _).
      * right.
        destruct p as [|[baseQuery] firstPipe restPipes|pipe l pipes];
          simpl in Hcall; [done|..];
          apply run_pipe_next in Hcall as (? & ? & -> & -> & _);
          simpl in *; by right.
    + destruct p as [|[baseQuery] firstPipe restPipes|pipe l pipes];
        simpl in Hcall; [by left|..]; right;
        apply run_pipe_last in Hcall as ->; simpl; left.
  - unfold loop_body in Hb. rewrite Hp in Hb.
    repeat case_match; simplify_eq.
  - done.
Qed.

(** X16: [QueryApply] returns a statement without error only through the
    build stage: a chain that succeeds is empty (and then returns nothing)
    or contains [BuildQueryPipe]. *)
Theorem success_needs_build makeCtx pipes maps h q a :
  QueryApply (composePipes makeCtx pipes) maps h = Some (Done (q, a, None)) →
  pipes = [] ∨ BuildQueryPipe ∈ pipes.
Proof.
  intros Hr.
  destruct (loop_success_needs_build _ _ _ _ _ _ Hr eq_refl) as [Hn|Hin].
  - left. by destruct pipes.
  - right. by destruct pipes.
Qed.

(** X17: an invocation works on a context of its own: at every point of a
    run of [QueryApply] on a composed chain, the contexts that were in the
    store before are as they were, and at most one context has been added. *)
Theorem invocation_keeps_other_contexts baseQuery pipes maps h s :
  rtc (loop_step maps)
      (start (composePipes (MakeCtxMaker baseQuery) pipes) h) s →
  store s = h ∨ ∃ c, store s = h ++ [c].
Proof.
  intros Hrtc.
  assert (Hinv : s = start (composePipes (MakeCtxMaker baseQuery) pipes) h
                 ∨ (currentPipe s = None
                    ∧ (store s = h ∨ ∃ c, store s = h ++ [c]))
                 ∨ ∃ pipe pipes' c,
                     currentPipe s = Some (StageInput pipe (length h) pipes')
                     ∧ store s = h ++ [c]).
  { revert s Hrtc. apply rtc_ind_r; [by left|].
    intros s s' _ Hstep IH. right.
    apply loop_step_inv in Hstep as (p & callArgs & Hp & Hcall & _).
    assert (Hrun : ∀ pipe pipes' c,
              run_pipe pipe (length h) pipes' callArgs (h ++ [c])
              = Done (store s', (ctx s', currentPipe s', None)) →
              (currentPipe s' = None
               ∧ (store s' = h ∨ ∃ c, store s' = h ++ [c]))
              ∨ ∃ pipe pipes' c,
                  currentPipe s' = Some (StageInput pipe (length h) pipes')
                  ∧ store s' = h ++ [c]).
    { intros pipe pipes' c Hrun.
      destruct (run_pipe_store _ _ _ _ _ _ _ Hrun) as (c0 & c' & _ & Hs & _).
      rewrite insert_fresh in Hs.
      destruct (currentPipe s') as [next|] eqn:Hnext.
      - right. apply run_pipe_next in Hrun as (n & r & _ & -> & _).
        by exists n, r, c'.
      - left. split; [done|]. right. by exists c'. }
    destruct IH as [->|[[Hnone _]|(pipe & pipes' & c & Hcur & Hst)]].
    - simpl in Hp. injection Hp as <-.
      destruct pipes as [|firstPipe restPipes]; simpl in Hcall.
      + injection Hcall as <- _ <-. left. split; [done|by left].
      + by eapply Hrun.
    - congruence.
    - rewrite Hcur in Hp. injection Hp as <-. simpl in Hcall.
      rewrite Hst in Hcall. by eapply Hrun. }
  destruct Hinv as [->|[[_ ?]|(? & ? & c & _ & ?)]]; [by left|done|].
  right. by exists c.
Qed.

Lemma loop_readers_then_build maps readers : ∀ pipe rest l h i ctx0 fuel,
  pipe :: rest = readers ++ [BuildQueryPipe] →
  is_Some (h !! l) →
  i + length readers ≤ length maps →
  (∀ j ptr, j < i + length readers → maps !! j = Some ptr → is_Some ptr) →
  ∃ r, QueryApply_loop (S (S (length readers + fuel))) maps
         {| currentPipe := Some (StageInput pipe l rest);
            ctx := ctx0; idx := i; store := h |} = Some (Done r).
Proof.
  induction readers as [|reader readers IH];
    intros pipe rest l h i ctx0 fuel Hchain [c Hl] Hlen Hptr.
  - injection Hchain as -> ->. erewrite loop_build by done.
    destruct (Named _ _) as [?|[? ?]]; by eexists.
  - simpl in Hchain. injection Hchain as -> ->. simpl in Hlen, Hptr.
    destruct (maps !! i) as [ptr|] eqn:Hi.
    2:{ apply lookup_ge_None in Hi. lia. }
    destruct (Hptr i ptr) as [M ->]; [lia|done|].
    assert (Hnext : ∃ nextPipe restPipes,
              readers ++ [BuildQueryPipe] = nextPipe :: restPipes)
      by (destruct readers; simpl; eauto).
    destruct Hnext as (nextPipe & restPipes & Hrest). rewrite Hrest.
    pose proof (lookup_lt_Some _ _ _ Hl) as Hlt.
    assert (Hgo : ∀ c', ∃ r,
              QueryApply_loop (S (S (length readers + fuel))) maps
                {| currentPipe := Some (StageInput nextPipe l restPipes);
                   ctx := Some l; idx := S i; store := <[l := c']> h |}
              = Some (Done r)).
    { intros c'. apply IH; [done| |lia|].
      - exists c'. by apply list_lookup_insert_eq.
      - intros j ptr Hj. apply Hptr. lia. }
    destruct reader as [required|whitelist|].
    + cbn [length Nat.add QueryApply_loop]. unfold loop_body at 1.
      cbn [currentPipe idx store call run_pipe]. rewrite Hi, Hl. cbn [deref].
      destruct (ensure_cols required M c) as [c' [e|]]; [by eexists|].
      cbn [pass_on]. apply Hgo.
    + cbn [length Nat.add]. erewrite loop_patch by done.
      destruct (filter _ whitelist); [by eexists|]. apply Hgo.
    + cbn [length Nat.add]. erewrite loop_build by done.
      destruct (Named _ _) as [?|[? ?]]; by eexists.
Qed.

(** X18: a chain that ends with the build stage does not panic when it is
    given at least one map per stage before the build stage and none of
    these is a nil pointer: [QueryApply] then returns a statement or an
    error. *)
Theorem enough_maps_never_panic baseQuery readers maps h :
  length readers ≤ length maps →
  (∀ j ptr, j < length readers → maps !! j = Some ptr → is_Some ptr) →
  ∃ r, QueryApply (composePipes (MakeCtxMaker baseQuery)
                     (readers ++ [BuildQueryPipe])) maps h
       = Some (Done r).
Proof.
  intros Hlen Hptr. unfold QueryApply, start.
  destruct (readers ++ [BuildQueryPipe]) as [|pipe rest] eqn:Hchain.
  { by destruct readers. }
  cbn [composePipes stages]. rewrite loop_first.
  assert (length rest = length readers) as ->.
  { apply (f_equal length) in Hchain. rewrite length_app in Hchain.
    simpl in Hchain. lia. }
  replace (S (S (length readers))) with (S (S (length readers + 0))) by lia.
  apply loop_readers_then_build; [done| |lia|done].
  rewrite lookup_fresh. by eexists.
Qed.

(** X23: a nil map pointer given to a first stage that reads at least one
    column makes [QueryApply] panic on the nil dereference, whatever the
    later stages and maps are. *)
Lemma nil_map_panics baseQuery col cols restPipes maps h :
  QueryApply (composePipes (MakeCtxMaker baseQuery)
                (EnsureInputColsPipe (col :: cols) :: restPipes))
             (None :: maps) h
  = Some (Panicked NilDereference)
  ∧ QueryApply (composePipes (MakeCtxMaker baseQuery)
                  (PatchFilterPipe (col :: cols) :: restPipes))
               (None :: maps) h
    = Some (Panicked NilDereference).
Proof.
  split; unfold QueryApply, start; cbn [composePipes stages];
    rewrite loop_first; cbn [QueryApply_loop]; unfold loop_body at 1;
    cbn [currentPipe idx store call run_pipe lookup list_lookup];
    by rewrite lookup_fresh.
Qed.

Lemma QueryApply_loop_S maps fuel s :
  QueryApply_loop (S fuel) maps s
  = match loop_body maps s with
    | Panicked p => Some (Panicked p)
    | Done (inr r) => Some (Done r)
    | Done (inl s') => QueryApply_loop fuel maps s'
    end.
Proof. done. Qed.

Lemma loop_after_build maps pre post : ∀ pipe rest rest' l h i ctx0 fuel fuel',
  pipe :: rest = pre ++ BuildQueryPipe :: post →
  pipe :: rest' = pre ++ [BuildQueryPipe] →
  QueryApply_loop (S (S (length pre + fuel))) maps
    {| currentPipe := Some (StageInput pipe l rest);
       ctx := ctx0; idx := i; store := h |}
  = QueryApply_loop (S (S (length pre + fuel'))) maps
      {| currentPipe := Some (StageInput pipe l rest');
         ctx := ctx0; idx := i; store := h |}.
Proof.
  assert (Hbuild : ∀ pipes pipes' l h i ctx0 fuel fuel',
    QueryApply_loop (S (S fuel)) maps
      {| currentPipe := Some (StageInput BuildQueryPipe l pipes);
         ctx := ctx0; idx := i; store := h |}
    = QueryApply_loop (S (S fuel')) maps
        {| currentPipe := Some (StageInput BuildQueryPipe l pipes');
           ctx := ctx0; idx := i; store := h |}).
  { intros pipes pipes' l h i ctx0 fuel fuel'.
    cbn [QueryApply_loop]. unfold loop_body at 1 3.
    cbn [currentPipe idx store call run_pipe deref].
    destruct (maps !! i); destruct (h !! l) as [c|]; try done;
      (destruct (Named (query c) (nameArgs c)) as [err|[q a]]; [done|]);
      unfold loop_body; cbn [currentPipe ctx store]; by repeat case_match. }
  induction pre as [|reader pre IH];
    intros pipe rest rest' l h i ctx0 fuel fuel' Hchain Hchain'.
  - injection Hchain as -> ->. injection Hchain' as ->. apply Hbuild.
  - simpl in Hchain, Hchain'. injection Hchain as -> ->.
    injection Hchain' as ->.
    assert (Hnext : ∃ nextPipe restPipes restPipes',
              pre ++ BuildQueryPipe :: post = nextPipe :: restPipes
              ∧ pre ++ [BuildQueryPipe] = nextPipe :: restPipes')
      by (destruct pre; simpl; eauto).
    destruct Hnext as (nextPipe & restPipes & restPipes' & Hr & Hr').
    destruct reader as [required|whitelist|]; [| |apply Hbuild].
    + cbn [length Nat.add].
      rewrite (QueryApply_loop_S maps (S (S (length pre + fuel)))).
      rewrite (QueryApply_loop_S maps (S (S (length pre + fuel')))).
      unfold loop_body. cbn [currentPipe idx store call run_pipe].
      destruct (maps !! i) as [ptr|]; [|done].
      destruct (h !! l) as [c|]; [|done].
      destruct (deref ptr required) as [M|?]; [|done].
      destruct (ensure_cols required M c) as [c' [e|]]; [done|].
      rewrite Hr, Hr'. cbn [pass_on]. by apply IH.
    + cbn [length Nat.add].
      rewrite (QueryApply_loop_S maps (S (S (length pre + fuel)))).
      rewrite (QueryApply_loop_S maps (S (S (length pre + fuel')))).
      unfold loop_body. cbn [currentPipe idx store call run_pipe].
      destruct (maps !! i) as [ptr|]; [|done].
      destruct (h !! l) as [c|]; [|done].
      destruct (deref ptr whitelist) as [M|?]; [|done].
      destruct (patch_cols _ _ _ _ _) as [[na frags] patched].
      destruct (negb _); [done|].
      rewrite Hr, Hr'. cbn [pass_on]. by apply IH.
Qed.

(** X19: the build stage ends the chain: the stages listed after
    [BuildQueryPipe] are never run, so [QueryApply] returns the same with
    and without them. *)
Theorem stages_after_build_are_ignored baseQuery pre post maps h :
  QueryApply (composePipes (MakeCtxMaker baseQuery)
                (pre ++ BuildQueryPipe :: post)) maps h
  = QueryApply (composePipes (MakeCtxMaker baseQuery)
                  (pre ++ [BuildQueryPipe])) maps h.
Proof.
  unfold QueryApply, start.
  destruct (pre ++ BuildQueryPipe :: post) as [|pipe rest] eqn:Hchain.
  { by destruct pre. }
  destruct (pre ++ [BuildQueryPipe]) as [|pipe' rest'] eqn:Hchain'.
  { by destruct pre. }
  assert (pipe' = pipe) as ->.
  { destruct pre; simpl in *; congruence. }
  cbn [composePipes stages]. rewrite !loop_first.
  assert (Hl : length rest = length pre + length post).
  { apply (f_equal length) in Hchain. rewrite length_app in Hchain.
    simpl in Hchain. lia. }
  assert (Hl' : length rest' = length pre + 0).
  { apply (f_equal length) in Hchain'. rewrite length_app in Hchain'.
    simpl in Hchain'. lia. }
  rewrite Hl, Hl'. by apply (loop_after_build maps pre post).
Qed.

Lemma loop_readers_short maps q a readers : ∀ pipe rest l h i ctx0 fuel,
  pipe :: rest = readers ++ [BuildQueryPipe] →
  Forall (λ p, p ≠ BuildQueryPipe) readers →
  i ≤ length maps → length maps < i + length readers →
  QueryApply_loop fuel maps
    {| currentPipe := Some (StageInput pipe l rest);
       ctx := ctx0; idx := i; store := h |}
  ≠ Some (Done (q, a, None)).
Proof.
  induction readers as [|reader readers IH];
    intros pipe rest l h i ctx0 fuel Hchain Hreaders Hi Hlen.
  { simpl in Hlen. lia. }
  simpl in Hchain. injection Hchain as -> ->.
  apply Forall_cons in Hreaders as [Hreader Hreaders].
  destruct fuel as [|fuel]; [done|]. rewrite QueryApply_loop_S.
  assert (Hnext : ∃ nextPipe restPipes,
            readers ++ [BuildQueryPipe] = nextPipe :: restPipes)
    by (destruct readers; simpl; eauto).
  destruct Hnext as (nextPipe & restPipes & Hrest). rewrite Hrest.
  unfold loop_body. cbn [currentPipe idx store call].
  destruct (maps !! i) as [ptr|] eqn:HM.
  - apply lookup_lt_Some in HM.
    destruct reader as [required|whitelist|]; [| |done]; cbn [run_pipe].
    + destruct (h !! l) as [c|]; [|done].
      destruct (deref ptr required) as [M|?]; [|done].
      destruct (ensure_cols required M c) as [c' [e|]]; [done|].
      cbn [pass_on]. apply IH; [done|done|lia|simpl in Hlen; lia].
    + destruct (h !! l) as [c|]; [|done].
      destruct (deref ptr whitelist) as [M|?]; [|done].
      destruct (patch_cols _ _ _ _ _) as [[na frags] patched].
      destruct (negb _); [done|].
      cbn [pass_on]. apply IH; [done|done|lia|simpl in Hlen; lia].
  - by destruct reader.
Qed.

(** X21: a chain of map-reading stages that ends with the build stage never
    returns a statement when it is given fewer maps than it has reading
    stages: the run ends in an error of an earlier stage or in a panic. *)
Theorem too_few_maps_never_succeed baseQuery readers maps h q a :
  Forall (λ p, p ≠ BuildQueryPipe) readers →
  length maps < length readers →
  QueryApply (composePipes (MakeCtxMaker baseQuery)
                (readers ++ [BuildQueryPipe])) maps h
  ≠ Some (Done (q, a, None)).
Proof.
  intros Hreaders Hlen. unfold QueryApply, start.
  destruct (readers ++ [BuildQueryPipe]) as [|pipe rest] eqn:Hchain.
  { by destruct readers. }
  cbn [composePipes]. rewrite loop_first.
  by apply (loop_readers_short maps q a readers); [..|lia|].
Qed.

End Chains.

(** *** The chains on concrete inputs *)

Lemma requireColumns_on_any_context_witness :
  let c0 : QueryContext nat :=
    {| query := "q"; nameArgs := {["x" := 5]}; args := [] |} in
  call (StageInput (EnsureInputColsPipe ["a"]) 0 [BuildQueryPipe])
       [Some {["a" := 1]}] [c0]
  = Done (<[0 := {| query := "q";
                    nameArgs := filter (λ kv, kv.1 ∈ ["a"]) {["a" := 1]}
                                ∪ {["x" := 5]};
                    args := [] |}]> [c0],
          (Some 0, Some (StageInput BuildQueryPipe 0 []), None)).
Proof.
  intros c0.
  apply (requireColumns_on_any_context ["a"] {["a" := 1]} c0 [c0] 0
           BuildQueryPipe []).
  - reflexivity.
  - intros col Hcol. apply list_elem_of_singleton in Hcol. rewrite Hcol.
    vm_compute. eauto.
Defined.

Lemma patchFilter_text_depends_on_keys_only_witness :
  let c0 : QueryContext nat :=
    {| query := "SET %s"; nameArgs := ∅; args := [] |} in
  match call (StageInput (PatchFilterPipe ["name"]) 0 [BuildQueryPipe])
             [Some {["name" := 1]}] [c0],
        call (StageInput (PatchFilterPipe ["name"]) 0 [BuildQueryPipe])
             [Some {["name" := 2]}] [c0] with
  | Done (h1, r1), Done (h2, r2) =>
      r1 = r2 ∧ query <$> h1 !! 0 = query <$> h2 !! 0
  | Panicked p1, Panicked p2 => p1 = p2
  | _, _ => False
  end.
Proof.
  intros c0.
  apply (patchFilter_text_depends_on_keys_only ["name"]
           {["name" := 1]} {["name" := 2]} c0 [c0] 0 [BuildQueryPipe]).
  - reflexivity.
  - intros col Hcol. apply list_elem_of_singleton in Hcol. rewrite Hcol.
    vm_compute. split; eauto.
Defined.

Lemma require_then_build_witness :
  QueryApply (composePipes (MakeCtxMaker "WHERE id = :id")
                [EnsureInputColsPipe ["id"]; BuildQueryPipe])
             [Some ({["id" := 7; "other" := 3]} : StringMap nat)] []
  = Some match Named "WHERE id = :id"
                 (filter (λ kv, kv.1 ∈ ["id"])
                    ({["id" := 7; "other" := 3]} : StringMap nat)) with
         | inl err => Done (EmptyString, [], Some err)
         | inr (query', args') => Done (query', args', None)
         end.
Proof.
  apply (require_then_build "WHERE id = :id" ["id"]
           ({["id" := 7; "other" := 3]} : StringMap nat) [] []).
  intros col Hcol. apply list_elem_of_singleton in Hcol. rewrite Hcol.
  vm_compute. eauto.
Defined.

Lemma require_patch_then_build_witness :
  QueryApply (composePipes (MakeCtxMaker "SET %s WHERE id = :id")
                [EnsureInputColsPipe ["id"]; PatchFilterPipe ["name"];
                 BuildQueryPipe])
             [Some ({["id" := 7]} : StringMap nat); Some {["name" := 9]}] []
  = Some match filter (λ col, is_Some (({["name" := 9]} : StringMap nat) !! col))
                      ["name"] with
         | [] => Done (EmptyString, [], Some EmptyPatchError)
         | present =>
             match Named (Sprintf "SET %s WHERE id = :id"
                            (Join (setstring <$> present) ", ") false)
                         (filter (λ kv, kv.1 ∈ ["name"])
                            ({["name" := 9]} : StringMap nat)
                          ∪ filter (λ kv, kv.1 ∈ ["id"])
                              ({["id" := 7]} : StringMap nat)) with
             | inl err => Done (EmptyString, [], Some err)
             | inr (query', args') => Done (query', args', None)
             end
         end.
Proof.
  apply (require_patch_then_build "SET %s WHERE id = :id" ["id"] ["name"]
           ({["id" := 7]} : StringMap nat) {["name" := 9]} [] []).
  intros col Hcol. apply list_elem_of_singleton in Hcol. rewrite Hcol.
  vm_compute. eauto.
Defined.

Lemma first_error_is_returned_witness :
  QueryApply (composePipes (MakeCtxMaker "WHERE id = :id")
                (EnsureInputColsPipe (["a"] ++ "id" :: []) :: [BuildQueryPipe]))
             [Some ({["a" := 1]} : StringMap nat)] []
  = Some (Done (EmptyString, [],
                Some (MissingColumnError "id" "WHERE id = :id"))).
Proof.
  apply (first_error_is_returned "WHERE id = :id" ["a"] "id" []
           [BuildQueryPipe] ({["a" := 1]} : StringMap nat) [] []).
  - intros col Hcol. apply list_elem_of_singleton in Hcol. rewrite Hcol.
    vm_compute. eauto.
  - vm_compute. reflexivity.
Defined.

Lemma error_comes_with_nothing_witness :
  EmptyString = EmptyString ∧ @nil nat = [].
Proof.
  eapply (error_comes_with_nothing FETCH_DECK_QUERY [Some (∅ : StringMap nat)] []).
  vm_compute. reflexivity.
Defined.

Lemma success_needs_build_witness :
  [EnsureInputColsPipe ["id"]; BuildQueryPipe] = []
  ∨ BuildQueryPipe ∈ [EnsureInputColsPipe ["id"]; BuildQueryPipe].
Proof.
  eapply (success_needs_build (MakeCtxMaker "WHERE id = :id")
            [EnsureInputColsPipe ["id"]; BuildQueryPipe]
            [Some ({["id" := 7]} : StringMap nat)] []).
  vm_compute. reflexivity.
Defined.

Lemma invocation_keeps_other_contexts_witness :
  let s : loop_state nat :=
    {| currentPipe := Some (StageInput BuildQueryPipe 0 []);
       ctx := Some 0; idx := 1;
       store := [{| query := "WHERE id = :id";
                    nameArgs := {["id" := 7]}; args := [] |}] |} in
  store s = [] ∨ ∃ c, store s = [] ++ [c].
Proof.
  apply (invocation_keeps_other_contexts "WHERE id = :id"
           [EnsureInputColsPipe ["id"]; BuildQueryPipe] [Some {["id" := 7]}] []).
  apply rtc_once. vm_compute. reflexivity.
Defined.

Lemma enough_maps_never_panic_witness :
  ∃ r, QueryApply (composePipes (MakeCtxMaker "WHERE id = :id")
                     ([EnsureInputColsPipe ["id"]] ++ [BuildQueryPipe]))
                  [Some (∅ : StringMap nat)] []
       = Some (Done r).
Proof.
  apply (enough_maps_never_panic "WHERE id = :id"
           [EnsureInputColsPipe ["id"]] [Some (∅ : StringMap nat)] []).
  - simpl. lia.
  - intros j ptr Hj Hptr. simpl in Hj. destruct j as [|j]; [|lia].
    simpl in Hptr. injection Hptr as <-. eauto.
Defined.

Lemma too_few_maps_never_succeed_witness :
  QueryApply (composePipes (MakeCtxMaker "SET %s WHERE id = :id")
                ([EnsureInputColsPipe ["id"]; PatchFilterPipe ["name"]]
                 ++ [BuildQueryPipe]))
             [Some ({["id" := 7]} : StringMap nat)] []
  ≠ Some (Done ("SET name = ? WHERE id = ?", [9; 7], None)).
Proof.
  apply (too_few_maps_never_succeed "SET %s WHERE id = :id"
           [EnsureInputColsPipe ["id"]; PatchFilterPipe ["name"]]
           [Some ({["id" := 7]} : StringMap nat)] []).
  - repeat constructor; discriminate.
  - simpl. lia.
Defined.

End PipelineProps.

(** ** Properties of the closure table *)

Module ClosureProps.
Import Closure.

Local Open Scope Z_scope.
Local Set Warnings "-clear-no-such-hyp".

(** *** Lookup in the table after the statement *)

Lemma lookup_insert_or_ignore (T : table) r k :
  insert_or_ignore T r !! k =
    match T !! k with
    | Some n => Some n
    | None => if decide (key r = k) then Some (depth r) else None
    end.
Proof.
  unfold insert_or_ignore.
  destruct (T !! key r) as [m|] eqn:Hr.
  - destruct (T !! k) eqn:Hk; [done|].
    case_decide; [congruence|done].
  - rewrite lookup_insert. case_decide as Hd.
    + subst k. by rewrite Hr.
    + by destruct (T !! k).
Qed.

Lemma lookup_insert_or_ignore_all rs : ∀ (T : table) k,
  insert_or_ignore_all T rs !! k =
    match T !! k with
    | Some n => Some n
    | None => depth <$> head (filter (λ r, key r = k) rs)
    end.
Proof.
  induction rs as [|r rs IH]; intros T k; simpl.
  - by destruct (T !! k).
  - unfold insert_or_ignore_all in *. simpl. rewrite IH, lookup_insert_or_ignore.
    destruct (T !! k); [done|].
    rewrite filter_cons. by case_decide.
Qed.

Lemma elem_of_rows (T : table) t :
  t ∈ rows T ↔ T !! key t = Some (depth t).
Proof.
  unfold rows. rewrite list_elem_of_fmap. split.
  - intros ([[a b] n] & -> & Hin). by apply elem_of_map_to_list in Hin.
  - intros Hl. exists (key t, depth t). split; [by destruct t|].
    by apply elem_of_map_to_list.
Qed.

Lemma elem_of_select_ancestors (T : table) parent child r :
  r ∈ select_ancestors T parent child ↔
  ∃ a d, T !! (a, parent) = Some d ∧ r = Row a child (d + 1).
Proof.
  unfold select_ancestors. rewrite list_elem_of_fmap. split.
  - intros (t & -> & Hin). apply list_elem_of_filter in Hin as [Hd Hin].
    apply elem_of_rows in Hin. destruct t as [a b d]; simpl in *; subst b.
    by exists a, d.
  - intros (a & d & Hl & ->). exists (Row a parent d). split; [done|].
    apply list_elem_of_filter. split; [done|]. by apply elem_of_rows.
Qed.

(** The table after the statement, key by key. *)
Lemma lookup_ASSOCIATE (T : table) parent child a b :
  ASSOCIATE_DECK_AS_CHILD parent child T !! (a, b) =
    match T !! (a, b) with
    | Some n => Some n
    | None =>
        if decide (b = child) then
          match T !! (a, parent) with
          | Some d => Some (d + 1)
          | None => if decide (a = child) then Some 0 else None
          end
        else None
    end.
Proof.
  unfold ASSOCIATE_DECK_AS_CHILD. rewrite lookup_insert_or_ignore_all.
  destruct (T !! (a, b)) as [n|] eqn:Hab; [done|].
  rewrite filter_app.
  destruct (filter _ (select_ancestors T parent child)) as [|r l] eqn:Hf.
  - assert (Hnone : b = child → T !! (a, parent) = None).
    { intros ->. destruct (T !! (a, parent)) as [d|] eqn:Hp; [|done].
      assert (Hin : Row a child (d + 1) ∈ filter (λ r, key r = (a, child))
                      (select_ancestors T parent child)).
      { apply list_elem_of_filter. split; [done|].
        apply elem_of_select_ancestors. by exists a, d. }
      rewrite Hf in Hin. by apply elem_of_nil in Hin. }
    simpl. unfold select_self. rewrite filter_cons. unfold key at 1; simpl.
    case_decide as Hk.
    + injection Hk as -> ->. rewrite decide_True by done.
      rewrite Hnone by done. by rewrite decide_True.
    + case_decide as Hb; [|done]. subst b. rewrite Hnone by done.
      case_decide; [congruence|done].
  - assert (Hin : r ∈ filter (λ r, key r = (a, b)) (select_ancestors T parent child)).
    { rewrite Hf. apply list_elem_of_here. }
    apply list_elem_of_filter in Hin as [Hk Hin].
    apply elem_of_select_ancestors in Hin as (a' & d & Hp & ->).
    unfold key in Hk; simpl in Hk. injection Hk as -> <-.
    simpl. rewrite decide_True by done. by rewrite Hp.
Qed.

Lemma lookup_new_deck (T : table) id k :
  decks_closure_new_deck id T !! k =
    match T !! k with
    | Some n => Some n
    | None => if decide ((id, id) = k) then Some 0 else None
    end.
Proof. unfold decks_closure_new_deck. by rewrite lookup_insert_or_ignore. Qed.

(** The rows the statement writes, as far as the primary key decides: rows
    that are present stay as they are (insert-or-ignore); every edge
    [(ancestor, parent, depth)] gives the row [(ancestor, child, depth+1)]
    when that key is free; the self-edge [(child, child, 0)] is written when
    its key is free at that point of the statement, and the key is always
    taken afterwards; no other row appears. *)
Lemma associate_as_child_inserts (T : table) (parent child : Z) :
  (∀ k n, T !! k = Some n →
     ASSOCIATE_DECK_AS_CHILD parent child T !! k = Some n) ∧
  (∀ a d, T !! (a, parent) = Some d → T !! (a, child) = None →
     ASSOCIATE_DECK_AS_CHILD parent child T !! (a, child) = Some (d + 1)) ∧
  (T !! (child, child) = None → T !! (child, parent) = None →
     ASSOCIATE_DECK_AS_CHILD parent child T !! (child, child) = Some 0) ∧
  is_Some (ASSOCIATE_DECK_AS_CHILD parent child T !! (child, child)) ∧
  (∀ a b n, T !! (a, b) = None →
     ASSOCIATE_DECK_AS_CHILD parent child T !! (a, b) = Some n →
     b = child ∧ (T !! (a, parent) = Some (n - 1) ∨
                  (T !! (a, parent) = None ∧ a = child ∧ n = 0))).
Proof.
  split; [|split; [|split; [|split]]].
  - intros [a b] n Hk. by rewrite lookup_ASSOCIATE, Hk.
  - intros a d Hp Hc. rewrite lookup_ASSOCIATE, Hc, decide_True by done.
    by rewrite Hp.
  - intros Hc Hp. rewrite lookup_ASSOCIATE, Hc, decide_True by done.
    rewrite Hp. by rewrite decide_True.
  - rewrite lookup_ASSOCIATE. destruct (T !! (child, child)); [by eexists|].
    rewrite decide_True by done.
    destruct (T !! (child, parent)); [by eexists|].
    rewrite decide_True by done. by eexists.
  - intros a b n Hab. rewrite lookup_ASSOCIATE, Hab.
    case_decide as Hb; [|done].
    destruct (T !! (a, parent)) as [d|].
    + intros [= <-]. split; [done|]. left. f_equal. lia.
    + case_decide; [|done]. intros [= <-]. split; [done|]. by right.
Qed.

(** C8: running the associate-as-child statement a second time with the same
    arguments changes nothing. *)
Theorem associate_as_child_idempotent (T : table) (parent child : Z) :
  ASSOCIATE_DECK_AS_CHILD parent child
    (ASSOCIATE_DECK_AS_CHILD parent child T)
  = ASSOCIATE_DECK_AS_CHILD parent child T.
Proof.
  apply map_eq. intros [a b]. rewrite lookup_ASSOCIATE.
  destruct (ASSOCIATE_DECK_AS_CHILD parent child T !! (a, b)) as [n|] eqn:Hab;
    [done|].
  case_decide as Hb; [|done]. subst b.
  rewrite lookup_ASSOCIATE in Hab.
  destruct (T !! (a, child)) eqn:Hc; [done|].
  rewrite decide_True in Hab by done.
  destruct (T !! (a, parent)) eqn:Hp; [done|].
  case_decide as Ha; [done|].
  rewrite lookup_ASSOCIATE, Hp.
  repeat case_decide; done.
Qed.

(** *** The table as a transitive closure *)

Lemma path_start (D : list Z) (E : list (Z * Z)) a b n : path D E a b n → a ∈ D.
Proof. induction 1; auto. Qed.

Lemma path_mono (D D' : list Z) (E E' : list (Z * Z)) a b n :
  D ⊆ D' → E ⊆ E' → path D E a b n → path D' E' a b n.
Proof.
  intros HD HE. induction 1 as [a Ha|a b c n _ IH Hbc].
  - apply path_self. auto.
  - eapply path_step; [exact IH|auto].
Qed.

Lemma wired_empty : wired [] [] ∅.
Proof.
  split.
  - intros a b n. rewrite lookup_empty. split; [done|].
    intros Hp. apply path_start in Hp. by apply elem_of_nil in Hp.
  - intros p c Hin. by apply elem_of_nil in Hin.
Qed.

Lemma wired_self (D : list Z) (E : list (Z * Z)) (T : table) a m :
  wired D E T → T !! (a, a) = Some m → a ∈ D ∧ m = 0.
Proof.
  intros [Hcl _] Ha. pose proof Ha as Hp. apply Hcl, path_start in Hp.
  split; [done|].
  assert (T !! (a, a) = Some 0) by (by apply Hcl, path_self). congruence.
Qed.

Lemma wired_new_deck (D : list Z) (E : list (Z * Z)) (T : table) id :
  wired D E T → wired (D ++ [id]) E (decks_closure_new_deck id T).
Proof.
  intros HW. pose proof HW as [Hcl Hsrc]. split.
  - intros a b n. rewrite lookup_new_deck. split.
    + destruct (T !! (a, b)) as [m|] eqn:Hab.
      * intros [= ->]. apply Hcl in Hab.
        eapply path_mono; [| |exact Hab]; [|done].
        intros x Hx. apply elem_of_app. by left.
      * case_decide as Hk; [|done]. injection Hk as <- <-. intros [= <-].
        apply path_self, elem_of_app. right. apply list_elem_of_here.
    + induction 1 as [a Ha|a b c n Hab IH Hbc].
      * apply elem_of_app in Ha as [Ha|Ha].
        -- assert (T !! (a, a) = Some 0) as -> by (by apply Hcl, path_self).
           done.
        -- apply list_elem_of_singleton in Ha as ->.
           destruct (T !! (id, id)) as [m|] eqn:Hid.
           ++ by destruct (wired_self _ _ _ _ _ HW Hid) as [_ ->].
           ++ by rewrite decide_True.
      * assert (Hb : T !! (a, b) = Some n).
        { destruct (T !! (a, b)) as [m|] eqn:Hl; [done|].
          case_decide as Hk; [|done]. injection Hk as <- <-.
          assert (T !! (id, id) = Some 0) as Hid
            by (apply Hcl, path_self; eauto).
          congruence. }
        assert (T !! (a, c) = Some (n + 1)) as ->; [|done].
        apply Hcl. eapply path_step; [|exact Hbc]. by apply Hcl.
  - intros p c Hin. apply elem_of_app. left. eauto.
Qed.

Lemma no_descendants_spec (T : table) child :
  no_descendants T child = true ↔
  ∀ b n, T !! (child, b) = Some n → b = child.
Proof.
  unfold no_descendants. rewrite forallb_forall. split.
  - intros H b n Hl. specialize (H (Row child b n)).
    rewrite bool_decide_eq_true in H. apply H; [|done].
    apply list_elem_of_In, elem_of_rows. done.
  - intros H [a b n] Hin. apply list_elem_of_In, elem_of_rows in Hin.
    apply bool_decide_eq_true. simpl. intros ->. eauto.
Qed.

Lemma not_yet_linked_spec (T : table) parent child :
  not_yet_linked T parent child = true ↔
  ∀ a d, T !! (a, parent) = Some d → T !! (a, child) = None.
Proof.
  unfold not_yet_linked. rewrite forallb_forall. split.
  - intros H a d Hl. specialize (H (Row a parent d)).
    rewrite bool_decide_eq_true in H. apply H; [|done].
    apply list_elem_of_In, elem_of_rows. done.
  - intros H [a b n] Hin. apply list_elem_of_In, elem_of_rows in Hin.
    apply bool_decide_eq_true. simpl. intros ->. eauto.
Qed.

Lemma wired_associate (D : list Z) (E : list (Z * Z)) (T : table) parent child :
  wired D E T →
  in_order T (AssociateAsChild parent child) = true →
  wired D (E ++ [(parent, child)]) (ASSOCIATE_DECK_AS_CHILD parent child T).
Proof.
  intros HW Hord. pose proof HW as [Hcl Hsrc]. simpl in Hord.
  rewrite !andb_true_iff, !bool_decide_eq_true in Hord.
  destruct Hord as [[[[mp Hpp] [mc Hcc]] Hnd] Hnl].
  rewrite no_descendants_spec in Hnd. rewrite not_yet_linked_spec in Hnl.
  destruct (wired_self _ _ _ _ _ HW Hpp) as [HpD ->].
  destruct (wired_self _ _ _ _ _ HW Hcc) as [HcD ->].
  assert (Hne : parent ≠ child).
  { intros ->. apply Hnl in Hcc. congruence. }
  assert (Hleaf : ∀ x, (child, x) ∉ E).
  { intros x Hx.
    assert (Hcx : T !! (child, x) = Some (0 + 1)).
    { apply Hcl. eapply path_step; [|exact Hx]. by apply path_self. }
    pose proof (Hnd _ _ Hcx) as ->. rewrite Hcc in Hcx. discriminate. }
  assert (Hpath : ∀ a b n, path D (E ++ [(parent, child)]) a b n ↔
            path D E a b n ∨ (b = child ∧ ∃ d, path D E a parent d ∧ n = d + 1)).
  { intros a b n. split.
    - induction 1 as [a Ha|a b c n _ IH Hbc].
      + left. by apply path_self.
      + apply elem_of_app in Hbc as [Hbc|Hbc].
        * destruct IH as [IH|[-> _]].
          -- left. by eapply path_step.
          -- by apply Hleaf in Hbc.
        * apply list_elem_of_singleton in Hbc. injection Hbc as -> ->.
          destruct IH as [IH|[-> _]]; [|done].
          right. split; [done|]. by exists n.
    - intros [Hp|(-> & d & Hp & ->)].
      + eapply path_mono; [| |exact Hp]; [done|].
        intros x Hx. apply elem_of_app. by left.
      + eapply path_step.
        * eapply path_mono; [| |exact Hp]; [done|].
          intros x Hx. apply elem_of_app. by left.
        * apply elem_of_app. right. apply list_elem_of_here. }
  split.
  - intros a b n. rewrite Hpath, lookup_ASSOCIATE. split.
    + destruct (T !! (a, b)) as [m|] eqn:Hab.
      * intros [= ->]. left. by apply Hcl.
      * case_decide as Hb; [|done]. subst b.
        destruct (T !! (a, parent)) as [d|] eqn:Hap.
        -- intros [= <-]. right. split; [done|]. exists d. split; [|done].
           by apply Hcl.
        -- case_decide; [|done]. subst a. congruence.
    + intros [Hp|(-> & d & Hp & ->)].
      * apply Hcl in Hp. by rewrite Hp.
      * apply Hcl in Hp. rewrite (Hnl _ _ Hp), decide_True by done.
        by rewrite Hp.
  - intros p c Hin. apply elem_of_app in Hin as [Hin|Hin]; [eauto|].
    apply list_elem_of_singleton in Hin. by injection Hin as -> ->.
Qed.

Lemma wired_apply_ops os : ∀ (D : list Z) (E : list (Z * Z)) (T : table),
  wired D E T → all_in_order T os = true →
  wired (D ++ decks_of os) (E ++ edges_of os) (apply_ops T os).
Proof.
  induction os as [|o os IH]; intros D E T HW Hord.
  - unfold decks_of, edges_of. simpl. by rewrite !app_nil_r.
  - simpl in Hord. apply andb_true_iff in Hord as [Ho Hos].
    destruct o as [id|parent child].
    + apply (IH (D ++ [id]) E) in Hos; [|by apply wired_new_deck].
      rewrite <- (assoc_L (++)) in Hos. exact Hos.
    + apply (IH D (E ++ [(parent, child)])) in Hos; [|by apply wired_associate].
      rewrite <- (assoc_L (++) E) in Hos. exact Hos.
Qed.

Lemma elem_of_decks_of os id : id ∈ decks_of os ↔ CreateDeck id ∈ os.
Proof.
  unfold decks_of. rewrite list_elem_of_omap. split.
  - intros (o & Hin & Ho). destruct o; [|done]. by injection Ho as ->.
  - intros Hin. by exists (CreateDeck id).
Qed.

Lemma elem_of_edges_of os p c :
  (p, c) ∈ edges_of os ↔ AssociateAsChild p c ∈ os.
Proof.
  unfold edges_of. rewrite list_elem_of_omap. split.
  - intros (o & Hin & Ho). destruct o; [done|]. by injection Ho as -> ->.
  - intros Hin. by exists (AssociateAsChild p c).
Qed.

(** *** Building the hierarchy top-down is in hierarchy order *)

Lemma path_from_leaf (D : list Z) (E : list (Z * Z)) c b n :
  (∀ x, (c, x) ∉ E) → path D E c b n → b = c.
Proof.
  intros Hleaf Hp. induction Hp as [|a b x n _ IH Hbx]; [done|].
  rewrite (IH Hleaf) in Hbx. by apply Hleaf in Hbx.
Qed.

Lemma top_down_call_in_order (seen : list op) (T : table) o :
  wired (decks_of seen) (edges_of seen) T →
  top_down_call seen o = true → in_order T o = true.
Proof.
  intros [Hcl Hsrc]. destruct o as [id|parent child]; [done|]. simpl.
  rewrite !andb_true_iff, !bool_decide_eq_true, forallb_forall.
  intros [[[Hp Hc] Hne] Hfresh].
  assert (Hout : ∀ x, (child, x) ∉ edges_of seen).
  { intros x Hx. apply elem_of_edges_of, list_elem_of_In, Hfresh in Hx.
    simpl in Hx. apply negb_true_iff, bool_decide_eq_false in Hx. tauto. }
  assert (Hin : ∀ x, (x, child) ∉ edges_of seen).
  { intros x Hx. apply elem_of_edges_of, list_elem_of_In, Hfresh in Hx.
    simpl in Hx. apply negb_true_iff, bool_decide_eq_false in Hx. tauto. }
  split; [split; [split|]|].
  - exists 0. by apply Hcl, path_self.
  - exists 0. by apply Hcl, path_self.
  - apply no_descendants_spec. intros b n Hb. apply Hcl in Hb.
    by eapply path_from_leaf.
  - apply not_yet_linked_spec. intros a d Ha.
    destruct (T !! (a, child)) as [n|] eqn:Hac; [|done].
    apply Hcl in Hac. inversion Hac as [a' Ha'|a' b' c' n' Hab Hbc]; subst.
    + apply Hcl, path_from_leaf in Ha; done.
    + by apply Hin in Hbc.
Qed.

Lemma top_down_all_in_order os : ∀ (seen : list op) (T : table),
  wired (decks_of seen) (edges_of seen) T →
  top_down seen os = true → all_in_order T os = true.
Proof.
  induction os as [|o os IH]; intros seen T HW; [done|]. simpl.
  intros [Ho Hos]%andb_true_iff.
  pose proof (top_down_call_in_order _ _ _ HW Ho) as Hord.
  rewrite Hord. simpl. apply (IH (seen ++ [o])); [|done].
  unfold decks_of, edges_of. rewrite !omap_app.
  destruct o as [id|parent child]; simpl; rewrite ?app_nil_r.
  - by apply wired_new_deck.
  - by apply wired_associate.
Qed.

(** Built top-down from an empty store, the table is the transitive closure
    of the linked edges. *)
Corollary top_down_is_closure (os : list op) :
  top_down [] os = true →
  is_closure (decks_of os) (edges_of os) (apply_ops ∅ os).
Proof.
  intros Htd.
  apply (wired_apply_ops os [] [] ∅ wired_empty).
  by apply (top_down_all_in_order os [] ∅ wired_empty).
Qed.


Example tree_built_top_down :
  top_down [] [CreateDeck 1; CreateDeck 2; CreateDeck 3; CreateDeck 4;
               AssociateAsChild 1 2; AssociateAsChild 1 3;
               AssociateAsChild 2 4] = true.
Proof. vm_compute. reflexivity. Qed.

(** Linking bottom-up (the child already has a descendant) is not in
    hierarchy order, and the grandparent edge is then missing. *)
Example bottom_up_misses_grandchild :
  let os := [CreateDeck 1; CreateDeck 2; CreateDeck 3;
             AssociateAsChild 2 3; AssociateAsChild 1 2] in
  all_in_order ∅ os = false ∧ apply_ops ∅ os !! (1, 3) = None.
Proof. split; vm_compute; reflexivity. Qed.

(** The end-to-end example of the store: decks 1, 2, 3 linked as a chain. *)
Example animals_mammals_dogs :
  let T1 := apply_ops ∅ [CreateDeck 1; CreateDeck 2; AssociateAsChild 1 2] in
  DECK_CHILDREN 1 T1 = [Row 1 2 1] ∧
  apply_ops T1 [CreateDeck 3; AssociateAsChild 2 3] !! (1, 3) = Some 2.
Proof. split; vm_compute; reflexivity. Qed.

(** *** Further properties of the store *)

Lemma self_edged_new_deck (T : table) id :
  self_edged T → self_edged (decks_closure_new_deck id T).
Proof.
  intros HT a b n. rewrite !lookup_new_deck.
  destruct (T !! (a, b)) as [m|] eqn:Hab.
  - intros [= ->]. destruct (HT _ _ _ Hab) as (? & -> & ->). done.
  - case_decide as Hk; [|done]. injection Hk as <- <-. intros [= <-].
    rewrite Hab. by rewrite decide_True.
Qed.

Lemma self_edged_associate (T : table) parent child :
  self_edged T → self_edged (ASSOCIATE_DECK_AS_CHILD parent child T).
Proof.
  intros HT.
  assert (Hself : ASSOCIATE_DECK_AS_CHILD parent child T !! (child, child)
                  = Some 0).
  { rewrite lookup_ASSOCIATE.
    destruct (T !! (child, child)) as [m|] eqn:Hcc.
    - destruct (HT _ _ _ Hcc) as (_ & ? & _). congruence.
    - rewrite decide_True by done.
      destruct (T !! (child, parent)) as [d|] eqn:Hcp.
      + destruct (HT _ _ _ Hcp) as (_ & ? & _). congruence.
      + by rewrite decide_True. }
  intros a b n. rewrite (lookup_ASSOCIATE T parent child a b).
  destruct (T !! (a, b)) as [m|] eqn:Hab.
  - intros [= ->]. destruct (HT _ _ _ Hab) as (? & Ha & Hb).
    split; [done|]. rewrite !lookup_ASSOCIATE, Ha, Hb. done.
  - case_decide as Hb; [|done]. subst b.
    destruct (T !! (a, parent)) as [d|] eqn:Hap.
    + intros [= <-]. destruct (HT _ _ _ Hap) as (? & Ha & _).
      split; [lia|]. split; [|done]. by rewrite lookup_ASSOCIATE, Ha.
    + case_decide; [|done]. subst a. intros [= <-]. done.
Qed.

Lemma self_edged_apply_ops os : ∀ T : table,
  self_edged T → self_edged (apply_ops T os).
Proof.
  induction os as [|o os IH]; intros T HT; [done|]. simpl. apply IH.
  destruct o; [by apply self_edged_new_deck|by apply self_edged_associate].
Qed.

(** X1: whatever decks are created and linked, in whatever order, starting
    from an empty store, every row of the closure table has a depth that is
    not negative and both its decks have their self-edge at depth 0. *)
Theorem every_row_has_its_self_edges (os : list op) a b n :
  apply_ops ∅ os !! (a, b) = Some n →
  0 ≤ n ∧ apply_ops ∅ os !! (a, a) = Some 0
  ∧ apply_ops ∅ os !! (b, b) = Some 0.
Proof.
  apply (self_edged_apply_ops os ∅). intros ? ? ?. by rewrite lookup_empty.
Qed.

Lemma every_row_has_its_self_edges_witness :
  let os := [CreateDeck 1; AssociateAsChild 1 2; AssociateAsChild 2 1] in
  0 ≤ 1 ∧ apply_ops ∅ os !! (2, 2) = Some 0
  ∧ apply_ops ∅ os !! (1, 1) = Some 0.
Proof.
  apply (every_row_has_its_self_edges
           [CreateDeck 1; AssociateAsChild 1 2; AssociateAsChild 2 1] 2 1 1).
  vm_compute. reflexivity.
Defined.

Lemma apply_op_keeps (T : table) o k n :
  T !! k = Some n → apply_op T o !! k = Some n.
Proof.
  intros Hk. destruct k as [a b], o as [id|parent child]; simpl.
  - by rewrite lookup_new_deck, Hk.
  - by rewrite lookup_ASSOCIATE, Hk.
Qed.

(** X2: no call changes or removes a row: a row that is in the table is
    there, with the same depth, after any further creations and links. *)
Theorem rows_are_never_changed (os : list op) (T : table) k n :
  T !! k = Some n → apply_ops T os !! k = Some n.
Proof.
  revert T. induction os as [|o os IH]; intros T Hk; [done|].
  simpl. apply IH. by apply apply_op_keeps.
Qed.

Lemma rows_are_never_changed_witness :
  apply_ops {[(1, 2) := 7]} [CreateDeck 1; AssociateAsChild 1 2] !! (1, 2)
  = Some 7.
Proof.
  apply (rows_are_never_changed [CreateDeck 1; AssociateAsChild 1 2]
           {[(1, 2) := 7]} (1, 2) 7).
  vm_compute. reflexivity.
Defined.

Lemma elem_of_DECK_CHILDREN (T : table) parent r :
  r ∈ DECK_CHILDREN parent T ↔
  ancestor r = parent ∧ depth r = 1 ∧ T !! key r = Some 1.
Proof.
  unfold DECK_CHILDREN. rewrite list_elem_of_filter, elem_of_rows. split.
  - intros [[? Hd] Hr]. rewrite Hd in Hr. done.
  - intros (? & Hd & Hr). rewrite Hd. done.
Qed.

Lemma NoDup_rows (T : table) : NoDup (rows T).
Proof.
  unfold rows. apply NoDup_fmap_2_strong; [|apply NoDup_map_to_list].
  intros [[a b] n] [[a' b'] n'] _ _ [= -> -> ->]. done.
Qed.

(** X3: the trigger on a new deck (no row starts at its id) leaves the
    self-edge of the deck at depth 0, changes no other key, and the deck has
    no children. *)
Theorem new_deck_has_self_edge_and_no_children (T : table) id :
  (∀ b, T !! (id, b) = None) →
  decks_closure_new_deck id T !! (id, id) = Some 0
  ∧ (∀ k, k ≠ (id, id) → decks_closure_new_deck id T !! k = T !! k)
  ∧ DECK_CHILDREN id (decks_closure_new_deck id T) = [].
Proof.
  intros Hnew. split; [|split].
  - rewrite lookup_new_deck, Hnew. by rewrite decide_True.
  - intros k Hk. rewrite lookup_new_deck. destruct (T !! k); [done|].
    by rewrite decide_False.
  - apply elem_of_nil_inv. intros [a b n].
    rewrite elem_of_DECK_CHILDREN. unfold key. simpl. intros (-> & -> & Hr).
    rewrite lookup_new_deck, Hnew in Hr. by case_decide.
Qed.

Lemma new_deck_has_self_edge_and_no_children_witness :
  let T : table := {[(1, 1) := 0]} in
  decks_closure_new_deck 2 T !! (2, 2) = Some 0
  ∧ (∀ k, k ≠ (2, 2) → decks_closure_new_deck 2 T !! k = T !! k)
  ∧ DECK_CHILDREN 2 (decks_closure_new_deck 2 T) = [].
Proof.
  apply (new_deck_has_self_edge_and_no_children {[(1, 1) := 0]} 2).
  intros b. apply lookup_singleton_ne. congruence.
Defined.

Lemma path_depth (D : list Z) (E : list (Z * Z)) a b n :
  path D E a b n → 0 ≤ n ∧ (n = 0 → b = a).
Proof.
  induction 1 as [|a b c n _ [IH _] _]; [done|]. split; lia.
Qed.

Lemma path_direct (D : list Z) (E : list (Z * Z)) a c :
  path D E a c 1 ↔ a ∈ D ∧ (a, c) ∈ E.
Proof.
  split.
  - intros Hp. split; [by eapply path_start|].
    inversion Hp as [|a' b c' n Hab Hbc Hn]; subst.
    destruct (path_depth _ _ _ _ _ Hab) as [_ Hz].
    rewrite Hz in Hbc by lia. done.
  - intros [Ha Hac]. change 1 with (0 + 1). eapply path_step; [|done].
    by apply path_self.
Qed.

(** X4: after creations and links made in hierarchy order, the children
    query of a deck returns exactly one row [(parent, child, 1)] for each
    child linked under it, and no row twice. *)
Theorem children_are_the_linked_decks (os : list op) parent r :
  all_in_order ∅ os = true →
  (r ∈ DECK_CHILDREN parent (apply_ops ∅ os) ↔
   ∃ child, r = Row parent child 1 ∧ AssociateAsChild parent child ∈ os)
  ∧ NoDup (DECK_CHILDREN parent (apply_ops ∅ os)).
Proof.
  intros Hord.
  destruct (wired_apply_ops os [] [] ∅ wired_empty Hord) as [Hcl Hsrc].
  simpl in Hcl, Hsrc. split; [|apply NoDup_filter, NoDup_rows].
  rewrite elem_of_DECK_CHILDREN. split.
  - intros (Ha & Hd & Hr). destruct r as [a b n]. unfold key in Hr.
    simpl in *. subst a n. exists b. split; [done|].
    apply Hcl, path_direct in Hr as [_ Hr]. by apply elem_of_edges_of.
  - intros (child & -> & Hin). split; [done|]. split; [done|].
    apply elem_of_edges_of in Hin. apply Hcl, path_direct. eauto.
Qed.

Lemma children_are_the_linked_decks_witness :
  let os := [CreateDeck 1; CreateDeck 2; CreateDeck 3;
             AssociateAsChild 1 2; AssociateAsChild 2 3] in
  (Row 1 2 1 ∈ DECK_CHILDREN 1 (apply_ops ∅ os) ↔
   ∃ child, Row 1 2 1 = Row 1 child 1 ∧ AssociateAsChild 1 child ∈ os)
  ∧ NoDup (DECK_CHILDREN 1 (apply_ops ∅ os)).
Proof.
  apply (children_are_the_linked_decks
           [CreateDeck 1; CreateDeck 2; CreateDeck 3;
            AssociateAsChild 1 2; AssociateAsChild 2 3] 1 (Row 1 2 1)).
  vm_compute. reflexivity.
Defined.

(** Under a parent that no row reaches the statement writes no link: only
    the row the trigger writes for the child. *)
Lemma associate_under_unknown_parent (T : table) parent child :
  (∀ a, T !! (a, parent) = None) →
  ASSOCIATE_DECK_AS_CHILD parent child T = decks_closure_new_deck child T.
Proof.
  intros Hp. apply map_eq. intros [a b].
  rewrite lookup_ASSOCIATE, lookup_new_deck, Hp.
  destruct (T !! (a, b)); [done|].
  repeat case_decide; simplify_eq; done.
Qed.

(** For a deck under itself the statement writes what the trigger writes
    for that deck. *)
Lemma associate_to_itself (T : table) deck :
  ASSOCIATE_DECK_AS_CHILD deck deck T = decks_closure_new_deck deck T.
Proof.
  apply map_eq. intros [a b]. rewrite lookup_ASSOCIATE, lookup_new_deck.
  destruct (T !! (a, b)) as [n|] eqn:Hab; [done|].
  case_decide as Hb.
  - subst b. rewrite Hab. repeat case_decide; simplify_eq; done.
  - rewrite decide_False; [done|]. intros [= -> ->]. done.
Qed.

(** X7: after creations and links made in hierarchy order, linking again a
    pair that was linked changes nothing, however many calls were made in
    between. *)
Theorem relinking_changes_nothing (os : list op) parent child :
  all_in_order ∅ os = true →
  AssociateAsChild parent child ∈ os →
  ASSOCIATE_DECK_AS_CHILD parent child (apply_ops ∅ os) = apply_ops ∅ os.
Proof.
  intros Hord Hin.
  destruct (wired_apply_ops os [] [] ∅ wired_empty Hord) as [Hcl Hsrc].
  simpl in Hcl, Hsrc. apply elem_of_edges_of in Hin.
  assert (Hse : self_edged (apply_ops ∅ os)).
  { apply self_edged_apply_ops. intros ? ? ?. by rewrite lookup_empty. }
  assert (Hpc : apply_ops ∅ os !! (parent, child) = Some 1).
  { apply Hcl, path_direct. eauto. }
  apply map_eq. intros [a b]. rewrite lookup_ASSOCIATE.
  destruct (apply_ops ∅ os !! (a, b)) as [n|] eqn:Hab; [done|].
  case_decide as Hb; [|done]. subst b.
  destruct (apply_ops ∅ os !! (a, parent)) as [d|] eqn:Hap.
  - apply Hcl in Hap.
    assert (apply_ops ∅ os !! (a, child) = Some (d + 1)).
    { apply Hcl. by eapply path_step. }
    congruence.
  - case_decide; [|done]. subst a.
    destruct (Hse _ _ _ Hpc) as (_ & _ & ?). congruence.
Qed.

Lemma relinking_changes_nothing_witness :
  let os := [CreateDeck 1; CreateDeck 2; CreateDeck 3;
             AssociateAsChild 1 2; AssociateAsChild 2 3] in
  ASSOCIATE_DECK_AS_CHILD 1 2 (apply_ops ∅ os) = apply_ops ∅ os.
Proof.
  apply (relinking_changes_nothing
           [CreateDeck 1; CreateDeck 2; CreateDeck 3;
            AssociateAsChild 1 2; AssociateAsChild 2 3] 1 2).
  - vm_compute. reflexivity.
  - vm_compute. do 3 right. left.
Defined.

(** X8: two links with different children, neither child being the parent
    of the other link, can be made in either order: the table is the same. *)
Theorem links_of_unrelated_children_commute (T : table) p1 c1 p2 c2 :
  c1 ≠ c2 → c1 ≠ p2 → c2 ≠ p1 →
  ASSOCIATE_DECK_AS_CHILD p1 c1 (ASSOCIATE_DECK_AS_CHILD p2 c2 T)
  = ASSOCIATE_DECK_AS_CHILD p2 c2 (ASSOCIATE_DECK_AS_CHILD p1 c1 T).
Proof.
  intros Hc H12 H21. apply map_eq. intros [a b].
  rewrite !lookup_ASSOCIATE.
  destruct (T !! (a, b)) as [n|] eqn:Hab; [done|].
  destruct (T !! (a, p1)) as [d1|] eqn:Hp1;
    destruct (T !! (a, p2)) as [d2|] eqn:Hp2;
    repeat case_decide; simplify_eq; done.
Qed.

Lemma links_of_unrelated_children_commute_witness :
  let T : table := {[(1, 1) := 0; (2, 2) := 0; (3, 3) := 0]} in
  ASSOCIATE_DECK_AS_CHILD 1 2 (ASSOCIATE_DECK_AS_CHILD 1 3 T)
  = ASSOCIATE_DECK_AS_CHILD 1 3 (ASSOCIATE_DECK_AS_CHILD 1 2 T).
Proof.
  apply (links_of_unrelated_children_commute
           {[(1, 1) := 0; (2, 2) := 0; (3, 3) := 0]} 1 2 1 3); lia.
Defined.

(** *** The statements on the database, with the foreign keys *)

Lemma references_decks_spec (D : gset Z) (T T' : table) :
  references_decks D T T' = true ↔
  ∀ a b n, T' !! (a, b) = Some n → T !! (a, b) = None → a ∈ D ∧ b ∈ D.
Proof.
  unfold references_decks. rewrite bool_decide_eq_true. split.
  - intros HF a b n Hab. apply (HF (a, b) n Hab).
  - intros H [a b] n Hab. simpl. by apply (H a b n).
Qed.

Lemma new_deck_of_known_deck (T : table) id n :
  T !! (id, id) = Some n → decks_closure_new_deck id T = T.
Proof.
  intros Hid. unfold decks_closure_new_deck, insert_or_ignore, key. simpl.
  by rewrite Hid.
Qed.

Lemma associate_known_child db parent child :
  consistent db → child ∈ Decks db →
  associate_deck_as_child parent child db
  = Some (Database (Decks db)
            (ASSOCIATE_DECK_AS_CHILD parent child (DecksClosure db))).
Proof.
  intros [Hfk Hself] Hc. unfold associate_deck_as_child.
  assert (references_decks (Decks db) (DecksClosure db)
            (ASSOCIATE_DECK_AS_CHILD parent child (DecksClosure db)) = true)
    as ->; [|done].
  apply references_decks_spec. intros a b n. rewrite lookup_ASSOCIATE.
  intros Hab Hnone. rewrite Hnone in Hab.
  case_decide as Hb; [|done]. subst b. split; [|done].
  destruct (DecksClosure db !! (a, parent)) as [d|] eqn:Hap.
  - by destruct (Hfk _ _ _ Hap).
  - case_decide; [|done]. by subst a.
Qed.

Lemma associate_unknown_child db parent child :
  consistent db → child ∉ Decks db →
  associate_deck_as_child parent child db = None.
Proof.
  intros [Hfk Hself] Hc. unfold associate_deck_as_child.
  destruct (references_decks _ _ _) eqn:Href; [|done].
  rewrite references_decks_spec in Href.
  assert (Hnone : DecksClosure db !! (child, child) = None).
  { destruct (DecksClosure db !! (child, child)) as [n|] eqn:Hcc; [|done].
    by destruct (Hfk _ _ _ Hcc). }
  destruct (associate_as_child_inserts (DecksClosure db) parent child)
    as (_ & _ & _ & [n Hn] & _).
  by destruct (Href _ _ _ Hn Hnone).
Qed.

Lemma consistent_empty : consistent empty_database.
Proof.
  split.
  - intros a b n. simpl. by rewrite lookup_empty.
  - intros d. simpl. set_solver.
Qed.

Lemma consistent_create db id :
  consistent db → id ∉ Decks db →
  consistent (Database ({[id]} ∪ Decks db)
                (decks_closure_new_deck id (DecksClosure db))).
Proof.
  intros [Hfk Hself] Hid.
  assert (Hnone : DecksClosure db !! (id, id) = None).
  { destruct (DecksClosure db !! (id, id)) as [n|] eqn:Hcc; [|done].
    by destruct (Hfk _ _ _ Hcc). }
  split; simpl.
  - intros a b n. rewrite lookup_new_deck.
    destruct (DecksClosure db !! (a, b)) as [m|] eqn:Hab.
    + intros _. destruct (Hfk _ _ _ Hab).
      split; apply elem_of_union; by right.
    + case_decide as Hk; [|done]. injection Hk as <- <-. intros _.
      split; apply elem_of_union; left; by apply elem_of_singleton.
  - intros d Hd. rewrite lookup_new_deck.
    apply elem_of_union in Hd as [->%elem_of_singleton|Hd].
    + rewrite Hnone. by rewrite decide_True.
    + by rewrite (Hself d Hd).
Qed.

Lemma consistent_associate db db' parent child :
  consistent db → associate_deck_as_child parent child db = Some db' →
  consistent db'.
Proof.
  intros [Hfk Hself]. unfold associate_deck_as_child.
  destruct (references_decks _ _ _) eqn:Href; [|done].
  rewrite references_decks_spec in Href. intros [= <-]. split; simpl.
  - intros a b n Hab.
    destruct (DecksClosure db !! (a, b)) as [m|] eqn:Hold; [by eapply Hfk|].
    by eapply Href.
  - intros d Hd. rewrite lookup_ASSOCIATE. by rewrite (Hself d Hd).
Qed.

Lemma consistent_exec_op db o : consistent db → consistent (exec_op db o).
Proof.
  intros Hdb. destruct o as [id|parent child]; simpl.
  - unfold create_new_deck. case_decide; [done|]. by apply consistent_create.
  - destruct (associate_deck_as_child parent child db) as [db'|] eqn:Ha;
      [|done].
    by eapply consistent_associate.
Qed.

Lemma consistent_exec_ops os : ∀ db,
  consistent db → consistent (exec_ops db os).
Proof.
  induction os as [|o os IH]; intros db Hdb; [done|]. simpl.
  by apply IH, consistent_exec_op.
Qed.

(** C2 (as amended): in every database the calls can reach, for every parent
    and every child that is a deck, the associate-as-child statement
    succeeds and inserts, for every edge [(ancestor, parent, depth)], the row
    [(ancestor, child, depth+1)] when that key is free; rows that are present
    are left as they are, the self-edge [(child, child, 0)] among them, and
    no other row is inserted. For a child that is no deck the statement
    fails on the foreign key and inserts nothing. *)
Theorem associate_deck_as_child_inserts (os : list op) (parent child : Z) :
  let db := exec_ops empty_database os in
  (child ∉ Decks db → associate_deck_as_child parent child db = None) ∧
  (child ∈ Decks db →
     ∃ T', associate_deck_as_child parent child db
           = Some (Database (Decks db) T')
       ∧ (∀ k n, DecksClosure db !! k = Some n → T' !! k = Some n)
       ∧ (∀ a d, DecksClosure db !! (a, parent) = Some d →
                 DecksClosure db !! (a, child) = None →
                 T' !! (a, child) = Some (d + 1))
       ∧ T' !! (child, child) = Some 0
       ∧ (∀ a b n, DecksClosure db !! (a, b) = None → T' !! (a, b) = Some n →
                   b = child ∧ DecksClosure db !! (a, parent) = Some (n - 1))).
Proof.
  intros db.
  assert (Hdb : consistent db) by apply consistent_exec_ops, consistent_empty.
  split; [by apply associate_unknown_child|].
  intros Hc. eexists. split; [by apply associate_known_child|].
  destruct (associate_as_child_inserts (DecksClosure db) parent child)
    as (Hkeep & Hnew & _ & _ & Honly).
  destruct Hdb as [_ Hself].
  split; [done|]. split; [done|]. split; [by apply Hkeep, Hself|].
  intros a b n Hnone Hab. destruct (Honly a b n Hnone Hab) as [-> [?|(_ & -> & _)]];
    [done|].
  rewrite (Hself child Hc) in Hnone. done.
Qed.

(** With deck 1 created and no deck 2, the statement for parent 1 and child 2
    fails: the edge [(1, 1, 0)] gives no row [(1, 2, 1)] and the missing
    self-edge [(2, 2, 0)] is not inserted. *)
Lemma associate_child_without_deck :
  let db := exec_ops empty_database [CreateDeck 1] in
  DecksClosure db !! (1, 1) = Some 0
  ∧ DecksClosure db !! (2, 2) = None
  ∧ associate_deck_as_child 1 2 db = None
  ∧ exec_ops empty_database [CreateDeck 1; AssociateAsChild 1 2] = db.
Proof. repeat split; vm_compute; reflexivity. Qed.

Lemma associate_deck_as_child_inserts_witness :
  let db := exec_ops empty_database [CreateDeck 1; CreateDeck 2] in
  ∃ T', associate_deck_as_child 1 2 db = Some (Database (Decks db) T')
      ∧ T' !! (1, 2) = Some 1 ∧ T' !! (2, 2) = Some 0.
Proof.
  intros db.
  destruct (associate_deck_as_child_inserts [CreateDeck 1; CreateDeck 2] 1 2)
    as [_ Hdeck].
  destruct Hdeck as (T' & Hsome & _ & Hnew & Hself & _).
  { vm_compute. reflexivity. }
  exists T'. split; [exact Hsome|]. split; [|exact Hself].
  apply (Hnew 1 0); vm_compute; reflexivity.
Defined.

Example associate_child_with_deck :
  DecksClosure (exec_ops empty_database
                  [CreateDeck 1; CreateDeck 2; AssociateAsChild 1 2]) !! (1, 2)
  = Some 1.
Proof. vm_compute. reflexivity. Qed.

(** X5: in every database the calls can reach, associate-as-child under a
    parent that is no deck records nothing: the statement succeeds without
    changing anything when the child is a deck, and fails otherwise. *)
Theorem unknown_parent_links_nothing (os : list op) (parent child : Z) :
  parent ∉ Decks (exec_ops empty_database os) →
  associate_deck_as_child parent child (exec_ops empty_database os)
  = if decide (child ∈ Decks (exec_ops empty_database os))
    then Some (exec_ops empty_database os) else None.
Proof.
  intros Hp. set (db := exec_ops empty_database os) in *.
  assert (Hdb : consistent db) by apply consistent_exec_ops, consistent_empty.
  case_decide as Hc; [|by apply associate_unknown_child].
  rewrite associate_known_child by done. destruct Hdb as [Hfk Hself].
  rewrite associate_under_unknown_parent.
  - rewrite (new_deck_of_known_deck _ _ 0) by by apply Hself. by destruct db.
  - intros a. destruct (DecksClosure db !! (a, parent)) as [n|] eqn:Hap; [|done].
    by destruct (Hfk _ _ _ Hap).
Qed.

Lemma unknown_parent_links_nothing_witness :
  associate_deck_as_child 5 2 (exec_ops empty_database [CreateDeck 2])
  = if decide (2 ∈ Decks (exec_ops empty_database [CreateDeck 2]))
    then Some (exec_ops empty_database [CreateDeck 2]) else None.
Proof.
  apply (unknown_parent_links_nothing [CreateDeck 2] 5 2).
  vm_compute. discriminate.
Defined.

(** X6: in every database the calls can reach, associate-as-child of a deck
    under itself changes nothing (no cycle row is created), and the
    statement fails for an id that is no deck. *)
Theorem linking_a_deck_to_itself (os : list op) (deck : Z) :
  associate_deck_as_child deck deck (exec_ops empty_database os)
  = if decide (deck ∈ Decks (exec_ops empty_database os))
    then Some (exec_ops empty_database os) else None.
Proof.
  set (db := exec_ops empty_database os).
  assert (Hdb : consistent db) by apply consistent_exec_ops, consistent_empty.
  case_decide as Hc; [|by apply associate_unknown_child].
  rewrite associate_known_child by done. destruct Hdb as [Hfk Hself].
  rewrite associate_to_itself.
  rewrite (new_deck_of_known_deck _ _ 0) by by apply Hself. by destruct db.
Qed.

Lemma exec_ops_decks os : ∀ db,
  Decks (exec_ops db os) = Decks db ∪ list_to_set (decks_of os).
Proof.
  induction os as [|o os IH]; intros db.
  - unfold decks_of. simpl. set_solver.
  - simpl. rewrite IH. destruct o as [id|parent child]; simpl.
    + unfold create_new_deck, decks_of. case_decide; simpl; set_solver.
    + unfold associate_deck_as_child, decks_of.
      destruct (references_decks _ _ _); simpl; set_solver.
Qed.

Lemma exec_ops_in_order os : ∀ db,
  consistent db → all_in_order (DecksClosure db) os = true →
  DecksClosure (exec_ops db os) = apply_ops (DecksClosure db) os.
Proof.
  induction os as [|o os IH]; intros db Hdb; [done|]. simpl.
  intros [Ho Hos]%andb_true_iff.
  destruct o as [id|parent child]; simpl in *.
  - unfold create_new_deck. case_decide as Hid; simpl.
    + destruct Hdb as [Hfk Hself].
      rewrite (new_deck_of_known_deck _ _ 0) in * by by apply Hself.
      by apply IH.
    + rewrite IH; [done|by apply consistent_create|done].
  - assert (Hc : child ∈ Decks db).
    { rewrite !andb_true_iff, !bool_decide_eq_true in Ho.
      destruct Ho as [[[_ [n Hcc]] _] _]. destruct Hdb as [Hfk _].
      by destruct (Hfk _ _ _ Hcc). }
    rewrite associate_known_child by done. simpl.
    rewrite IH; [done| |done].
    eapply consistent_associate; [done|]. by apply associate_known_child.
Qed.



(** X22: the foreign keys do not stand in the way of calls made in
    hierarchy order: run on the database, they leave the closure table that
    the statements write without the check, and the decks are the created
    ids. *)
Theorem in_order_calls_meet_the_foreign_keys (os : list op) :
  all_in_order ∅ os = true →
  DecksClosure (exec_ops empty_database os) = apply_ops ∅ os
  ∧ Decks (exec_ops empty_database os) = list_to_set (decks_of os).
Proof.
  intros Hord. split.
  - by apply (exec_ops_in_order os empty_database consistent_empty).
  - rewrite exec_ops_decks. simpl. set_solver.
Qed.

Lemma in_order_calls_meet_the_foreign_keys_witness :
  let os := [CreateDeck 1; CreateDeck 2; CreateDeck 3;
             AssociateAsChild 1 2; AssociateAsChild 2 3] in
  DecksClosure (exec_ops empty_database os) = apply_ops ∅ os
  ∧ Decks (exec_ops empty_database os) = list_to_set (decks_of os).
Proof.
  apply (in_order_calls_meet_the_foreign_keys
           [CreateDeck 1; CreateDeck 2; CreateDeck 3;
            AssociateAsChild 1 2; AssociateAsChild 2 3]).
  vm_compute. reflexivity.
Defined.

End ClosureProps.
